(** * lib-algo: the intrusive linked [Stack]

    A shallow embedding of [src/structures/Stack.ts] (module [StackTs]) and
    of its sibling revision that uses the shared [SentinelNode] marker
    (module [StackSn]), followed by the properties of the specification.

    Modelling choices, shared by both modules.
    - A node is a JavaScript object; its identity is a location [loc] and
      its mutable [parent] field lives in a store [gmap loc StackNode].
      Reading [parent] of an object that has no such property gives the
      absent value, so a location missing from the store reads as absent.
    - [Optional<T>] is [option loc]; [guard] from [@cosmicmind/foundationjs]
      accepts exactly the present values.
    - [count] is a JavaScript number that the code only ever steps by one;
      it is an integer [Z] here.  A double steps an integer exactly only
      between -2^53 and 2^53, so every statement about the value of a
      [count] that is not tied to the number of linked nodes assumes that
      range ([incr_exact], [decr_exact]).
    - A comparator may raise: it ends in a [completion].  Comparators and
      query predicates have no effect on the store.
    - [while] loops and the consumption of a generator take a [fuel]
      argument and answer [None] when it runs out.
    - In [stackPop] the new [top] is read from [n.parent] before that
      field is reset, as in the source. *)

From stdpp Require Import base gmap list.
From Stdlib Require Import ZArith Lia.

Definition loc := positive.

(** How a call ends: it returns a value or it raises an exception. *)
Inductive completion (A : Type) : Type :=
| Returns (a : A)
| Throws.

Arguments Returns {A} a.
Arguments Throws {A}.

Module StackTs.

(** [const sentinel = void 0] *)
Definition sentinel : option loc := None.

(** [guard<T>(x)]: is [x] a present value? *)
Definition guard (v : option loc) : bool :=
  match v with
  | Some _ => true
  | None => false
  end.

(** [type StackNode = { parent?: StackNode }] *)
Record StackNode := { parent : option loc }.

Abbreviation heap := (gmap loc StackNode).

(** [n.parent] *)
Definition get_parent (h : heap) (n : loc) : option loc :=
  match h !! n with
  | Some nd => parent nd
  | None => sentinel
  end.

(** [n.parent = v] *)
Definition set_parent (h : heap) (n : loc) (v : option loc) : heap :=
  <[n := {| parent := v |}]> h.

(** [stackNodeCreate(props)]: a new object whose [parent] is the sentinel. *)
Definition stackNodeCreate (h : heap) : loc * heap :=
  let n := fresh (dom h) in
  (n, <[n := {| parent := sentinel |}]> h).

(** [type Stack<T> = { top?: T, count: number }] *)
Record Stack := { top : option loc; count : Z }.

Definition stackCreate : Stack := {| top := sentinel; count := 0 |}.

Definition stackPeek (s : Stack) : option loc := top s.

(** [++stack.count] is [count + 1] for an integer [count] from -2^53 up
    to 2^53 - 1; the statements below rely on it only there. *)
Definition stackPush (h : heap) (s : Stack) (node : loc) : heap * Stack :=
  (set_parent h node (top s), {| top := Some node; count := count s + 1 |}).

(** [--stack.count] is [count - 1] for an integer [count] from -2^53 + 1
    up to 2^53; the statements below rely on it only there. *)

Definition stackPop (h : heap) (s : Stack) : option loc * heap * Stack :=
  let n := top s in
  match n with
  | Some n' =>
      (n, set_parent h n' sentinel,
       {| top := get_parent h n'; count := count s - 1 |})
  | None => (n, h, s)
  end.

(** ** Generators

    A generator object is its suspended control state.  The body of a
    generator function does not run before the first [next()], and every
    [n = n.parent] is executed when the generator is resumed, on the store
    as it is at that moment (the traversal is live).  A stack is passed by
    value here, so [FreshIterator] holds the stack as it was when
    [stackIterator] was called. *)
Inductive Gen :=
| FreshIterator (s : Stack)
| FreshFrom (node : loc)
| FreshToParent (node : loc)
| Suspended (n : loc)
| Finished.

Definition stackIterator (s : Stack) : Gen := FreshIterator s.
Definition stackIterateFrom (node : loc) : Gen := FreshFrom node.
Definition stackIterateToParent (node : loc) : Gen := FreshToParent node.

(** One call of [next()]: the value yielded ([None] when done) and the
    generator afterwards. *)
Definition gen_next (h : heap) (g : Gen) : option loc * Gen :=
  let n :=
    match g with
    | FreshIterator s => top s
    | FreshFrom node => Some node
    | FreshToParent node => get_parent h node
    | Suspended n => get_parent h n
    | Finished => sentinel
    end in
  match n with
  | Some n' => (Some n', Suspended n')
  | None => (None, Finished)
  end.

(** Running a generator to completion on an unchanging store, as
    [[...g]] does. *)
Fixpoint collect (fuel : nat) (h : heap) (g : Gen) : option (list loc) :=
  match fuel with
  | O => None
  | S fuel' =>
      match gen_next h g with
      | (Some n, g') => cons n <$> collect fuel' h g'
      | (None, _) => Some []
      end
  end.

(** ** stackClear *)
Fixpoint stackClear_loop (fuel : nat) (h : heap) (s : Stack) : option (heap * Stack) :=
  match fuel with
  | O => None
  | S fuel' =>
      if guard (top s) then
        let '(_, h', s') := stackPop h s in stackClear_loop fuel' h' s'
      else Some (h, s)
  end.

(** Every pass but the last two resets one [parent] that was set, so the
    loop needs at most [size h + 2] passes (see [stackClear_total]). *)
Definition stackClear (h : heap) (s : Stack) : option (heap * Stack) :=
  stackClear_loop (size h + 2) h s.

(** ** stackDepth *)
Fixpoint stackDepth_loop (fuel : nat) (h : heap) (n : option loc) (depth : Z) : option Z :=
  match fuel with
  | O => None
  | S fuel' =>
      match n with
      | Some n' => stackDepth_loop fuel' h (get_parent h n') (depth + 1)
      | None => Some depth
      end
  end.

Definition stackDepth (fuel : nat) (h : heap) (node : loc) : option Z :=
  stackDepth_loop fuel h (get_parent h node) 0.

(** ** Comparison *)
Section Compare.

(** [a > b] on two objects first converts both to primitives, and that
    conversion raises a TypeError when an object has no usable [valueOf]
    or [toString] (an object without prototype, for one).  [js_gt a b] is
    [None] then, and the outcome of the comparison otherwise. *)
Variable js_gt : loc → loc → option bool.

(** [a === b ? 0 : a > b ? 1 : -1] *)
Definition StackCompareFn (a b : loc) : completion Z :=
  if decide (a = b) then Returns 0%Z
  else match js_gt a b with
       | Some true => Returns 1%Z
       | Some false => Returns (-1)%Z
       | None => Throws
       end.

End Compare.

(** [guard(stack.top) && 0 === compare(stack.top, node)]: the comparator
    is not called on an empty stack. *)
Definition stackIsTop (s : Stack) (node : loc)
    (compare : loc → loc → completion Z) : completion bool :=
  match top s with
  | Some t =>
      match compare t node with
      | Returns z => Returns (guard (top s) && (0 =? z)%Z)
      | Throws => Throws
      end
  | None => Returns false
  end.

Fixpoint stackHas_loop (fuel : nat) (h : heap) (g : Gen) (node : loc)
    (compare : loc → loc → completion Z) : option (completion bool) :=
  match fuel with
  | O => None
  | S fuel' =>
      match gen_next h g with
      | (Some n, g') =>
          match compare n node with
          | Returns z =>
              if (0 =? z)%Z then Some (Returns true)
              else stackHas_loop fuel' h g' node compare
          | Throws => Some Throws
          end
      | (None, _) => Some (Returns false)
      end
  end.

Definition stackHas (fuel : nat) (h : heap) (s : Stack) (node : loc)
    (compare : loc → loc → completion Z) : option (completion bool) :=
  stackHas_loop fuel h (stackIterator s) node compare.

(** The inner loop of [stackQuery]: [true] when control falls through to
    [r.add(n)], [false] on [continue loop]. *)
Fixpoint query_inner (fn : list (loc → bool)) (n : loc) : bool :=
  match fn with
  | [] => true
  | f :: fn' => if f n then query_inner fn' n else false
  end.

Fixpoint stackQuery_loop (fuel : nat) (h : heap) (g : Gen)
    (fn : list (loc → bool)) (r : gset loc) : option (gset loc) :=
  match fuel with
  | O => None
  | S fuel' =>
      match gen_next h g with
      | (Some n, g') =>
          if query_inner fn n then stackQuery_loop fuel' h g' fn ({[n]} ∪ r)
          else stackQuery_loop fuel' h g' fn r
      | (None, _) => Some r
      end
  end.

Definition stackQuery (fuel : nat) (h : heap) (s : Stack)
    (fn : list (loc → bool)) : option (gset loc) :=
  stackQuery_loop fuel h (stackIterator s) fn ∅.

End StackTs.

(** * The revision built on [SentinelNode] *)
Module StackSn.

(** Modelled from the spec: [SentinelNode] is imported from [@/utils],
    a module that is not among the sources read here.  The specification calls it
    the shared empty marker, "the designated no-reference value
    terminating every chain"; a reference of this revision is therefore
    either that marker or a node. *)
Inductive Ref :=
| SentinelNode
| Node (n : loc).

(** [guard<T>(x)] rejects the marker and accepts every node. *)
Definition guard (v : Ref) : bool :=
  match v with
  | Node _ => true
  | SentinelNode => false
  end.

(** [type Stackable = { parent?: Stackable }] *)
Record Stackable := { parent : Ref }.

Abbreviation heap := (gmap loc Stackable).

Definition get_parent (h : heap) (n : loc) : Ref :=
  match h !! n with
  | Some nd => parent nd
  | None => SentinelNode
  end.

Definition set_parent (h : heap) (n : loc) (v : Ref) : heap :=
  <[n := {| parent := v |}]> h.

Definition stackNodeCreate (h : heap) : loc * heap :=
  let n := fresh (dom h) in
  (n, <[n := {| parent := SentinelNode |}]> h).

Record Stack := { top : Ref; count : Z }.

Definition stackCreate : Stack := {| top := SentinelNode; count := 0 |}.

Definition stackPeek (s : Stack) : Ref := top s.

Definition stackPush (h : heap) (s : Stack) (node : loc) : heap * Stack :=
  (set_parent h node (top s), {| top := Node node; count := count s + 1 |}).

Definition stackPop (h : heap) (s : Stack) : Ref * heap * Stack :=
  let n := top s in
  match n with
  | Node n' =>
      (n, set_parent h n' SentinelNode,
       {| top := get_parent h n'; count := count s - 1 |})
  | SentinelNode => (n, h, s)
  end.

Inductive Gen :=
| FreshIterator (s : Stack)
| FreshFrom (node : loc)
| FreshToParent (node : loc)
| Suspended (n : loc)
| Finished.

Definition stackIterator (s : Stack) : Gen := FreshIterator s.
Definition stackIterateFrom (node : loc) : Gen := FreshFrom node.
Definition stackIterateToParent (node : loc) : Gen := FreshToParent node.

Definition gen_next (h : heap) (g : Gen) : option loc * Gen :=
  let n :=
    match g with
    | FreshIterator s => top s
    | FreshFrom node => Node node
    | FreshToParent node => get_parent h node
    | Suspended n => get_parent h n
    | Finished => SentinelNode
    end in
  match n with
  | Node n' => (Some n', Suspended n')
  | SentinelNode => (None, Finished)
  end.

Fixpoint collect (fuel : nat) (h : heap) (g : Gen) : option (list loc) :=
  match fuel with
  | O => None
  | S fuel' =>
      match gen_next h g with
      | (Some n, g') => cons n <$> collect fuel' h g'
      | (None, _) => Some []
      end
  end.

Fixpoint stackClear_loop (fuel : nat) (h : heap) (s : Stack) : option (heap * Stack) :=
  match fuel with
  | O => None
  | S fuel' =>
      if guard (top s) then
        let '(_, h', s') := stackPop h s in stackClear_loop fuel' h' s'
      else Some (h, s)
  end.

Definition stackClear (h : heap) (s : Stack) : option (heap * Stack) :=
  stackClear_loop (size h + 2) h s.

Fixpoint stackDepth_loop (fuel : nat) (h : heap) (n : Ref) (depth : Z) : option Z :=
  match fuel with
  | O => None
  | S fuel' =>
      match n with
      | Node n' => stackDepth_loop fuel' h (get_parent h n') (depth + 1)
      | SentinelNode => Some depth
      end
  end.

Definition stackDepth (fuel : nat) (h : heap) (node : loc) : option Z :=
  stackDepth_loop fuel h (get_parent h node) 0.

(** [a === b ? 0 : -1] *)
Definition StackCompareFn (a b : loc) : completion Z :=
  Returns (if decide (a = b) then 0 else -1)%Z.

Definition stackIsTop (s : Stack) (node : loc)
    (compare : loc → loc → completion Z) : completion bool :=
  match top s with
  | Node t =>
      match compare t node with
      | Returns z => Returns (guard (top s) && (0 =? z)%Z)
      | Throws => Throws
      end
  | SentinelNode => Returns false
  end.

Fixpoint stackHas_loop (fuel : nat) (h : heap) (g : Gen) (node : loc)
    (compare : loc → loc → completion Z) : option (completion bool) :=
  match fuel with
  | O => None
  | S fuel' =>
      match gen_next h g with
      | (Some n, g') =>
          match compare n node with
          | Returns z =>
              if (0 =? z)%Z then Some (Returns true)
              else stackHas_loop fuel' h g' node compare
          | Throws => Some Throws
          end
      | (None, _) => Some (Returns false)
      end
  end.

Definition stackHas (fuel : nat) (h : heap) (s : Stack) (node : loc)
    (compare : loc → loc → completion Z) : option (completion bool) :=
  stackHas_loop fuel h (stackIterator s) node compare.

Fixpoint query_inner (fn : list (loc → bool)) (n : loc) : bool :=
  match fn with
  | [] => true
  | f :: fn' => if f n then query_inner fn' n else false
  end.

Fixpoint stackQuery_loop (fuel : nat) (h : heap) (g : Gen)
    (fn : list (loc → bool)) (r : gset loc) : option (gset loc) :=
  match fuel with
  | O => None
  | S fuel' =>
      match gen_next h g with
      | (Some n, g') =>
          if query_inner fn n then stackQuery_loop fuel' h g' fn ({[n]} ∪ r)
          else stackQuery_loop fuel' h g' fn r
      | (None, _) => Some r
      end
  end.

Definition stackQuery (fuel : nat) (h : heap) (s : Stack)
    (fn : list (loc → bool)) : option (gset loc) :=
  stackQuery_loop fuel h (stackIterator s) fn ∅.

End StackSn.

(** * Vocabulary of the specification *)
Module StackSpec.
Import StackTs.

(** [chain h v ns]: following [parent] from [v] visits exactly [ns], in
    this order, and then arrives at the sentinel. *)
Inductive chain (h : heap) : option loc → list loc → Prop :=
| chain_end : chain h sentinel []
| chain_link n ns : chain h (get_parent h n) ns → chain h (Some n) (n :: ns).

(** [reach h v n]: node [n] is met when following [parent] from [v]. *)
Inductive reach (h : heap) : option loc → loc → Prop :=
| reach_here n : reach h (Some n) n
| reach_up n m : reach h (get_parent h n) m → reach h (Some n) m.

(** Pushing a sequence of nodes, first to last. *)
Fixpoint push_all (h : heap) (s : Stack) (ns : list loc) : heap * Stack :=
  match ns with
  | [] => (h, s)
  | n :: ns' => let '(h', s') := stackPush h s n in push_all h' s' ns'
  end.

(** [k] calls of [stackPop], with the values they return. *)
Fixpoint pop_n (k : nat) (h : heap) (s : Stack) : list (option loc) * heap * Stack :=
  match k with
  | O => ([], h, s)
  | S k' =>
      let '(r, h', s') := stackPop h s in
      let '(rs, h'', s'') := pop_n k' h' s' in
      (r :: rs, h'', s'')
  end.

(** The data-model invariant: [count] is the length of the chain that
    hangs from [top]. *)
Definition stack_ok (h : heap) (s : Stack) : Prop :=
  ∃ ns, chain h (top s) ns ∧ count s = Z.of_nat (length ns).

(** The invariant of the specification. *)
Definition count_top_inv (s : Stack) : Prop :=
  count s = 0%Z ↔ top s = sentinel.

(** The states of one stack used under the single-linkage contract: it
    starts fresh; a node is pushed only while it is not linked into this
    stack; and whatever else happens in the store (nodes being created,
    other stacks being used under the same contract) leaves the [parent]
    of the nodes linked here alone. *)
Inductive contract_run : heap → Stack → Prop :=
| run_create h : contract_run h stackCreate
| run_push h s node :
    contract_run h s → ¬ reach h (top s) node →
    contract_run (stackPush h s node).1 (stackPush h s node).2
| run_pop h s :
    contract_run h s → contract_run (stackPop h s).1.2 (stackPop h s).2
| run_clear h s h' s' :
    contract_run h s → stackClear h s = Some (h', s') → contract_run h' s'
| run_frame h h' s :
    contract_run h s →
    (∀ n, reach h (top s) n → get_parent h' n = get_parent h n) →
    contract_run h' s.

(** [k] successive [++] (resp. [--]) from the integer [c] are exact on a
    double: [++] is exact from -2^53 up to 2^53 - 1 and [--] from
    -2^53 + 1 up to 2^53; outside, the double is left unchanged or
    rounded. *)
Definition incr_exact (c : Z) (k : nat) : Prop :=
  (- 2 ^ 53 ≤ c ∧ c + Z.of_nat k ≤ 2 ^ 53)%Z.

Definition decr_exact (c : Z) (k : nat) : Prop :=
  (- 2 ^ 53 ≤ c - Z.of_nat k ∧ c ≤ 2 ^ 53)%Z.

(** Where a generator stands: the node its next [next()] yields, if any. *)
Definition entry (h : heap) (g : Gen) : option loc := (gen_next h g).1.

(** The nodes whose [parent] is set: the measure of [stackClear]. *)
Definition linked (h : heap) : heap :=
  filter (λ kv, parent kv.2 ≠ sentinel) h.

End StackSpec.

(** * The two revisions, side by side *)
Module StackRel.

(** The two empty markers identified. *)
Definition ref_sn (v : option loc) : StackSn.Ref :=
  match v with
  | Some n => StackSn.Node n
  | None => StackSn.SentinelNode
  end.

Definition ref_ts (v : StackSn.Ref) : option loc :=
  match v with
  | StackSn.Node n => Some n
  | StackSn.SentinelNode => None
  end.

Definition node_sn (nd : StackTs.StackNode) : StackSn.Stackable :=
  {| StackSn.parent := ref_sn (StackTs.parent nd) |}.

Definition node_ts (nd : StackSn.Stackable) : StackTs.StackNode :=
  {| StackTs.parent := ref_ts (StackSn.parent nd) |}.

Definition heap_sn (h : StackTs.heap) : StackSn.heap := node_sn <$> h.

Definition heap_ts (h : StackSn.heap) : StackTs.heap := node_ts <$> h.

Definition stack_sn (s : StackTs.Stack) : StackSn.Stack :=
  {| StackSn.top := ref_sn (StackTs.top s); StackSn.count := StackTs.count s |}.

Definition stack_ts (s : StackSn.Stack) : StackTs.Stack :=
  {| StackTs.top := ref_ts (StackSn.top s); StackTs.count := StackSn.count s |}.


Definition state_sn (st : StackTs.heap * StackTs.Stack) : StackSn.heap * StackSn.Stack :=
  (heap_sn st.1, stack_sn st.2).


End StackRel.

(** * Sample stores *)
Module StackExamples.
Import StackTs.

(** Node 1 below node 2: what pushing 1 and then 2 leaves behind. *)
Definition two_linked : heap :=
  set_parent (set_parent ∅ 1%positive sentinel) 2%positive (Some 1%positive).

(** What the calls push 1, push 2, push 1 leave behind on a fresh stack:
    the second push of node 1 closes a cycle. *)
Definition pushed_twice : heap * Stack :=
  let '(h1, s1) := stackPush ∅ stackCreate 1%positive in
  let '(h2, s2) := stackPush h1 s1 2%positive in
  stackPush h2 s2 1%positive.

End StackExamples.

(** * Shapes of parent links beyond the well-formed chain *)
Module StackShapes.
Import StackTs.

(** [segment h v ns w]: following [parent] from [v] visits exactly [ns],
    in this order, and the [parent] of the last one is [w] (which is [v]
    itself when [ns] is empty).  A chain is a segment that ends at the
    sentinel; a segment that ends at one of its own nodes is a loop. *)
Inductive segment (h : heap) : option loc → list loc → option loc → Prop :=
| segment_stop v : segment h v [] v
| segment_link n ns w :
    segment h (get_parent h n) ns w → segment h (Some n) (n :: ns) w.

(** Nodes 1 and 2 under a stack of two, and node 3 apart. *)
Definition three_nodes : heap :=
  set_parent (set_parent (set_parent ∅ 1%positive sentinel) 2%positive (Some 1%positive))
             3%positive sentinel.

End StackShapes.

(** * Properties of [Stack.ts] *)
Module StackProps.
Import StackTs StackSpec StackExamples.

(** ** The store *)

Lemma get_set_parent_eq (h : heap) n v : get_parent (set_parent h n v) n = v.
Proof. unfold get_parent, set_parent. by rewrite lookup_insert_eq. Qed.

Lemma get_set_parent_ne (h : heap) n m v :
  n ≠ m → get_parent (set_parent h n v) m = get_parent h m.
Proof. intros Hne. unfold get_parent, set_parent. by rewrite lookup_insert_ne. Qed.

(** ** Chains *)

Lemma chain_functional h v ns1 ns2 : chain h v ns1 → chain h v ns2 → ns1 = ns2.
Proof.
  intros H1. revert ns2.
  induction H1 as [|n ns H1 IH]; intros ns2 H2; inversion H2; subst; [done|].
  f_equal. by apply IH.
Qed.

Lemma chain_from_member h v ns x :
  chain h v ns → x ∈ ns →
  ∃ suf, chain h (Some x) (x :: suf) ∧ (length suf < length ns)%nat.
Proof.
  induction 1 as [|n ns Hc IH]; intros Hx.
  - by apply elem_of_nil in Hx.
  - apply elem_of_cons in Hx as [->|Hx].
    + exists ns. split; [by constructor | simpl; lia].
    + destruct (IH Hx) as (suf & Hs & Hlen). exists suf. split; [done | simpl; lia].
Qed.

Lemma chain_head_fresh h n ns : chain h (Some n) (n :: ns) → n ∉ ns.
Proof.
  intros Hc Hin. inversion Hc as [|? ? Ht]; subst.
  destruct (chain_from_member _ _ _ _ Ht Hin) as (suf & Hs & Hlen).
  pose proof (chain_functional _ _ _ _ Hc Hs) as Heq.
  injection Heq as ->. lia.
Qed.

Lemma chain_NoDup h v ns : chain h v ns → NoDup ns.
Proof.
  induction 1 as [|n ns Hc IH]; constructor; [|done].
  eapply chain_head_fresh. by constructor.
Qed.

Lemma chain_frame h h' v ns :
  chain h v ns → (∀ x, x ∈ ns → get_parent h' x = get_parent h x) → chain h' v ns.
Proof.
  induction 1 as [|n ns Hc IH]; intros Hsame; constructor.
  rewrite Hsame by apply list_elem_of_here.
  apply IH. intros x Hx. apply Hsame. by apply list_elem_of_further.
Qed.

Lemma chain_reach h v ns x : chain h v ns → (reach h v x ↔ x ∈ ns).
Proof.
  induction 1 as [|n ns Hc IH]; split.
  - inversion 1.
  - intros Hx. by apply elem_of_nil in Hx.
  - inversion 1; subst; [apply list_elem_of_here|].
    apply list_elem_of_further. by apply IH.
  - intros [->|Hx]%elem_of_cons; [constructor|].
    apply reach_up. by apply IH.
Qed.

Lemma chain_set_parent_outside h v ns n w :
  chain h v ns → n ∉ ns → chain (set_parent h n w) v ns.
Proof.
  intros Hc Hn. eapply chain_frame; [done|].
  intros x Hx. apply get_set_parent_ne. by intros ->.
Qed.

(** ** stackPop *)



(** ** stackPush *)

Lemma stackPush_chain h s node ns :
  chain h (top s) ns → node ∉ ns →
  chain (stackPush h s node).1 (top (stackPush h s node).2) (node :: ns).
Proof.
  intros Hc Hn. simpl. constructor. rewrite get_set_parent_eq.
  by apply chain_set_parent_outside.
Qed.

Lemma push_all_chain ns : ∀ h s ns0,
  chain h (top s) ns0 → NoDup ns → (∀ x, x ∈ ns → x ∉ ns0) →
  chain (push_all h s ns).1 (top (push_all h s ns).2) (reverse ns ++ ns0)
  ∧ count (push_all h s ns).2 = (count s + Z.of_nat (length ns))%Z.
Proof.
  induction ns as [|n ns IH]; intros h s ns0 Hc Hnd Hfresh.
  - simpl. split; [done | lia].
  - apply NoDup_cons in Hnd as [Hn Hnd].
    cbn [push_all]. destruct (stackPush h s n) as [h1 s1] eqn:Hpush.
    pose proof (stackPush_chain h s n ns0 Hc) as Hc1.
    rewrite Hpush in Hc1. simpl in Hc1.
    destruct (IH h1 s1 (n :: ns0)) as [Hc2 Hcnt]; [|done| |].
    + apply Hc1, Hfresh, list_elem_of_here.
    + intros x Hx. apply not_elem_of_cons. split; [by intros ->|].
      by apply Hfresh, list_elem_of_further.
    + rewrite reverse_cons, <- app_assoc. split; [done|].
      rewrite Hcnt. injection Hpush as _ <-. simpl. lia.
Qed.

Lemma chain_top_last h v ns : chain h v ns → v = head ns.
Proof. by destruct 1. Qed.

(** ** Popping along a chain *)

Lemma stackPop_chain h s n ns :
  chain h (top s) (n :: ns) →
  stackPop h s = (Some n, set_parent h n sentinel,
                  {| top := get_parent h n; count := count s - 1 |})
  ∧ chain (set_parent h n sentinel) (get_parent h n) ns.
Proof.
  intros Hc. pose proof (chain_top_last _ _ _ Hc) as Htop. simpl in Htop.
  unfold stackPop. rewrite Htop. split; [done|].
  rewrite Htop in Hc. pose proof (chain_head_fresh _ _ _ Hc) as Hn.
  inversion Hc; subst. by apply chain_set_parent_outside.
Qed.

Lemma pop_n_chain ns : ∀ h s,
  chain h (top s) ns →
  (pop_n (length ns) h s).1.1 = Some <$> ns
  ∧ top (pop_n (length ns) h s).2 = sentinel
  ∧ count (pop_n (length ns) h s).2 = (count s - Z.of_nat (length ns))%Z.
Proof.
  induction ns as [|n ns IH]; intros h s Hc.
  - simpl. inversion Hc. split; [done|]. split; [done | lia].
  - destruct (stackPop_chain _ _ _ _ Hc) as [Hpop Hc'].
    cbn [length pop_n]. rewrite Hpop.
    specialize (IH (set_parent h n sentinel)
                   {| top := get_parent h n; count := count s - 1 |} Hc').
    destruct (pop_n (length ns) _ _) as [[rs h2] s2]. simpl in *.
    destruct IH as (-> & Htop & Hcnt). split; [done|]. split; [done | lia].
Qed.

(** C1: pushing [n] distinct nodes onto a fresh stack gives [count = n]
    and makes the last one pushed the top; [n] pops then return the nodes
    last-pushed first and leave [count = 0] and an empty [top]. *)
Theorem push_pop_lifo (h : heap) (ns : list loc) :
  NoDup ns →
  let st1 := push_all h stackCreate ns in
  let res := pop_n (length ns) st1.1 st1.2 in
  count st1.2 = Z.of_nat (length ns)
  ∧ stackPeek st1.2 = last ns
  ∧ res.1.1 = Some <$> reverse ns
  ∧ count res.2 = 0%Z
  ∧ stackPeek res.2 = sentinel.
Proof.
  intros Hnd st1 res.
  destruct (push_all_chain ns h stackCreate [] (chain_end h) Hnd) as [Hc Hcnt].
  { intros x _. apply not_elem_of_nil. }
  fold st1 in Hc, Hcnt. rewrite app_nil_r in Hc. simpl in Hcnt.
  split; [done|]. split.
  { unfold stackPeek. rewrite (chain_top_last _ _ _ Hc). apply head_reverse. }
  destruct (pop_n_chain _ _ _ Hc) as (Hrs & Htop & Hcnt').
  rewrite length_reverse in Hrs, Htop, Hcnt'. fold res in Hrs, Htop, Hcnt'.
  split; [done|]. split; [lia | done].
Qed.

(** A run of C1 on three nodes. *)
Lemma push_pop_lifo_witness :
  NoDup [1; 2; 3]%positive
  ∧ let st1 := push_all ∅ stackCreate [1; 2; 3]%positive in
    let res := pop_n 3 st1.1 st1.2 in
    count st1.2 = 3%Z
    ∧ stackPeek st1.2 = Some 3%positive
    ∧ res.1.1 = [Some 3; Some 2; Some 1]%positive
    ∧ count res.2 = 0%Z
    ∧ stackPeek res.2 = sentinel.
Proof.
  assert (Hnd : NoDup [1; 2; 3]%positive).
  { compute_done. }
  split; [exact Hnd|].
  exact (push_pop_lifo ∅ [1; 2; 3]%positive Hnd).
Defined.


(** ** stackClear *)

Lemma stackClear_loop_S fuel h s :
  stackClear_loop (S fuel) h s =
  if guard (top s) then stackClear_loop fuel (stackPop h s).1.2 (stackPop h s).2
  else Some (h, s).
Proof. simpl. by destruct (stackPop h s) as [[? ?] ?]. Qed.

Lemma stackClear_loop_mono fuel : ∀ fuel' h s r,
  stackClear_loop fuel h s = Some r → fuel ≤ fuel' →
  stackClear_loop fuel' h s = Some r.
Proof.
  induction fuel as [|fuel IH]; intros fuel' h s r Hrun Hle; [done|].
  destruct fuel' as [|fuel']; [lia|]. simpl in *.
  destruct (guard (top s)); [|done].
  destruct (stackPop h s) as [[? h1] s1]. apply IH; [done | lia].
Qed.

Lemma stackClear_loop_agree fuel1 fuel2 h s r1 r2 :
  stackClear_loop fuel1 h s = Some r1 → stackClear_loop fuel2 h s = Some r2 →
  r1 = r2.
Proof.
  intros H1 H2.
  apply (stackClear_loop_mono _ (fuel1 `max` fuel2)) in H1; [|lia].
  apply (stackClear_loop_mono _ (fuel1 `max` fuel2)) in H2; [|lia].
  congruence.
Qed.

Lemma linked_reset h n nd :
  h !! n = Some nd → parent nd ≠ sentinel →
  size (linked h) = S (size (linked (set_parent h n sentinel))).
Proof.
  intros Hn Hp. unfold linked, set_parent.
  rewrite map_filter_insert_False by (simpl; tauto).
  rewrite map_filter_delete, map_size_delete_Some.
  - assert (size (filter (λ kv, parent kv.2 ≠ sentinel) h) ≠ 0); [|lia].
    apply map_size_non_empty_iff. intros Hempty.
    assert (filter (λ kv, parent kv.2 ≠ sentinel) h !! n = Some nd) as Hl
      by (by apply map_lookup_filter_Some).
    by rewrite Hempty, lookup_empty in Hl.
  - exists nd. by apply map_lookup_filter_Some.
Qed.

Lemma stackClear_loop_total k : ∀ h s,
  size (linked h) ≤ k → is_Some (stackClear_loop (S (S k)) h s).
Proof.
  induction k as [|k IH]; intros h s Hk;
    cbn [stackClear_loop]; unfold stackPop;
    (destruct (top s) as [n|] eqn:Htop; simpl; [|by eexists]);
    unfold get_parent; destruct (h !! n) as [nd|] eqn:Hn;
    try (by eexists); destruct (parent nd) as [m|] eqn:Hp; try (by eexists).
  - pose proof (linked_reset h n nd Hn) as Hsz. rewrite Hp in Hsz.
    specialize (Hsz ltac:(done)). lia.
  - pose proof (linked_reset h n nd Hn) as Hsz. rewrite Hp in Hsz.
    specialize (Hsz ltac:(done)).
    apply (IH (set_parent h n sentinel) {| top := Some m; count := count s - 1 |}).
    lia.
Qed.

(** [stackClear] returns on every store and every stack, cyclic chains
    included. *)
Lemma stackClear_total h s : is_Some (stackClear h s).
Proof.
  unfold stackClear. replace (size h + 2) with (S (S (size h))) by lia.
  apply stackClear_loop_total. apply map_subseteq_size, map_filter_subseteq.
Qed.

Lemma stackClear_loop_chain ns : ∀ h s,
  chain h (top s) ns →
  ∃ h', stackClear_loop (S (length ns)) h s
        = Some (h', {| top := sentinel; count := count s - Z.of_nat (length ns) |})
    ∧ (∀ x, x ∈ ns → get_parent h' x = sentinel)
    ∧ (∀ x, x ∉ ns → h' !! x = h !! x).
Proof.
  induction ns as [|n ns IH]; intros h s Hc.
  - inversion Hc as [Htop|]. exists h. simpl. rewrite <- Htop. simpl.
    split; [|split; [by intros x ?%elem_of_nil | done]].
    destruct s as [t c]. simpl in *. subst t. do 3 f_equal. lia.
  - destruct (stackPop_chain _ _ _ _ Hc) as [Hpop Hc'].
    pose proof (chain_top_last _ _ _ Hc) as Htop. simpl in Htop.
    assert (Hfresh : n ∉ ns).
    { apply (chain_head_fresh h). by rewrite <- Htop. }
    rewrite stackClear_loop_S, Htop, Hpop. cbn [guard length fst snd].
    destruct (IH _ {| top := get_parent h n; count := count s - 1 |} Hc')
      as (h' & Hrun & Hreset & Hrest).
    exists h'. rewrite Hrun. simpl. split; [do 3 f_equal; lia|]. split.
    + intros x [->|Hx]%elem_of_cons; [|by apply Hreset].
      unfold get_parent at 1. rewrite (Hrest _ Hfresh).
      apply (get_set_parent_eq h n sentinel).
    + intros x [Hxn Hx]%not_elem_of_cons. rewrite (Hrest _ Hx).
      unfold set_parent. by rewrite lookup_insert_ne.
Qed.

Lemma stackClear_chain h s ns :
  chain h (top s) ns →
  ∃ h', stackClear h s
        = Some (h', {| top := sentinel; count := count s - Z.of_nat (length ns) |})
    ∧ (∀ x, x ∈ ns → get_parent h' x = sentinel)
    ∧ (∀ x, x ∉ ns → h' !! x = h !! x).
Proof.
  intros Hc. destruct (stackClear_loop_chain ns h s Hc) as (h' & Hrun & Hprops).
  exists h'. split; [|done].
  destruct (stackClear_total h s) as [r Hr]. rewrite Hr. f_equal.
  eapply stackClear_loop_agree; [exact Hr | exact Hrun].
Qed.

(** C4: clearing a stack that holds the [n] nodes of [ns] leaves
    [count = 0], an empty [top], and every node of [ns] with its [parent]
    reset to the sentinel. *)
Theorem stackClear_unlinks (h : heap) (s : Stack) (ns : list loc) :
  chain h (top s) ns → count s = Z.of_nat (length ns) →
  ∃ h' s', stackClear h s = Some (h', s')
    ∧ count s' = 0%Z
    ∧ top s' = sentinel
    ∧ ∀ x, x ∈ ns → get_parent h' x = sentinel.
Proof.
  intros Hc Hcnt. destruct (stackClear_chain h s ns Hc) as (h' & Hrun & Hreset & _).
  eexists _, _. split; [exact Hrun|]. simpl. split; [lia|]. by split.
Qed.


(** C4 on the store [two_linked]. *)
Lemma stackClear_unlinks_witness :
  ∃ h' s', stackClear two_linked {| top := Some 2%positive; count := 2 |} = Some (h', s')
    ∧ count s' = 0%Z
    ∧ top s' = sentinel
    ∧ ∀ x, x ∈ [2; 1]%positive → get_parent h' x = sentinel.
Proof.
  apply (stackClear_unlinks two_linked {| top := Some 2%positive; count := 2 |}
           [2; 1]%positive).
  - exact (chain_link two_linked 2%positive [1%positive]
             (chain_link two_linked 1%positive [] (chain_end two_linked))).
  - reflexivity.
Defined.

(** [stackClear] is a run of pops that each return a node, one decrement
    each. *)
Lemma stackClear_loop_pops fuel : ∀ h s h' s',
  stackClear_loop fuel h s = Some (h', s') →
  ∃ k, (pop_n k h s).1.2 = h' ∧ (pop_n k h s).2 = s'
    ∧ Forall (λ r, guard r = true) (pop_n k h s).1.1
    ∧ count s' = (count s - Z.of_nat k)%Z.
Proof.
  induction fuel as [|fuel IH]; intros h s h' s' Hrun; [done|].
  rewrite stackClear_loop_S in Hrun.
  destruct (top s) as [n|] eqn:Htop; simpl in Hrun.
  - apply IH in Hrun as (k & Hh & Hs & Hrs & Hcnt). exists (S k).
    cbn [pop_n]. destruct (stackPop h s) as [[r h1] s1] eqn:Hpop.
    simpl in Hh, Hs, Hrs, Hcnt.
    destruct (pop_n k h1 s1) as [[rs h2] s2]. simpl in *.
    unfold stackPop in Hpop. rewrite Htop in Hpop. injection Hpop as <- _ <-.
    split; [done|]. split; [done|]. split; [by constructor|].
    simpl in Hcnt. lia.
  - injection Hrun as <- <-. exists 0. simpl. split; [done|]. split; [done|].
    split; [constructor | lia].
Qed.

Lemma reach_pushed_twice v x :
  reach pushed_twice.1 v x → v = Some 1%positive ∨ v = Some 2%positive →
  x ∈ [1; 2]%positive.
Proof.
  induction 1 as [n|n m Hr IH]; intros [Hv|Hv]; injection Hv as ->.
  - apply list_elem_of_here.
  - apply list_elem_of_further, list_elem_of_here.
  - apply IH. by right.
  - apply IH. by left.
Qed.

Lemma pushed_twice_clear :
  snd <$> stackClear pushed_twice.1 pushed_twice.2 = Some {| top := sentinel; count := 0 |}.
Proof. vm_compute. reflexivity. Qed.

(** C10 as the specification words it fails: after push 1, push 2,
    push 1 the nodes reachable from [top] are 1 and 2, [count] is 3, and
    [stackClear] pops three times, so [count] ends at 0 and not at
    3 - 2. *)
Lemma stackClear_count_counterexample :
  ¬ (∀ (h : heap) (s : Stack) (ns : list loc) h' s',
       NoDup ns → (∀ x, reach h (top s) x ↔ x ∈ ns) →
       stackClear h s = Some (h', s') →
       count s' = (count s - Z.of_nat (length ns))%Z).
Proof.
  intros Hclaim.
  pose proof pushed_twice_clear as Hrun.
  destruct (stackClear pushed_twice.1 pushed_twice.2) as [[h' s']|] eqn:Hclear;
    [|done].
  injection Hrun as Hs'.
  specialize (Hclaim pushed_twice.1 pushed_twice.2 [1; 2]%positive h' s').
  rewrite Hs' in Hclaim. simpl in Hclaim.
  assert (0 = 3 - 2)%Z as Habs; [|lia].
  apply Hclaim; [compute_done| |by rewrite <- Hs'].
  intros x. split.
  - intros Hr. eapply reach_pushed_twice; [exact Hr | by left].
  - intros [->|[->|[]%elem_of_nil]%elem_of_cons]%elem_of_cons.
    + apply reach_here.
    + apply reach_up, reach_here.
Qed.

(** C10, amended: [stackClear] never assigns [count]; on every state it
    returns after some number [k] of pops that each return a node, and a
    [count] that a double can step down [k] times exactly is lowered by
    [k].  When the parent chain from [top] ends at the sentinel, [k] is
    the number of nodes that were reachable from [top], whatever [count]
    was within that range, and [count] ends at 0 exactly when it was that
    number. *)
Theorem stackClear_count :
  (∀ h s, ∃ k h' s',
     stackClear h s = Some (h', s')
     ∧ (pop_n k h s).1.2 = h' ∧ (pop_n k h s).2 = s'
     ∧ Forall (λ r, guard r = true) (pop_n k h s).1.1
     ∧ (decr_exact (count s) k → count s' = (count s - Z.of_nat k)%Z))
  ∧ (∀ h s ns,
       chain h (top s) ns →
       NoDup ns ∧ (∀ x, reach h (top s) x ↔ x ∈ ns)
       ∧ ∃ h' s', stackClear h s = Some (h', s')
           ∧ (decr_exact (count s) (length ns) →
              count s' = (count s - Z.of_nat (length ns))%Z
              ∧ (count s' = 0%Z ↔ count s = Z.of_nat (length ns)))).
Proof.
  split.
  - intros h s. destruct (stackClear_total h s) as [[h' s'] Hrun].
    destruct (stackClear_loop_pops _ _ _ _ _ Hrun) as (k & Hh & Hs & Hrs & Hcnt).
    by exists k, h', s'.
  - intros h s ns Hc. split; [by eapply chain_NoDup|]. split.
    { intros x. by apply chain_reach. }
    destruct (stackClear_chain h s ns Hc) as (h' & Hrun & _).
    eexists _, _. split; [exact Hrun|]. simpl. intros _. split; [done | lia].
Qed.

(** C10 on [two_linked] with a [count] that is off by five. *)
Lemma stackClear_count_witness :
  NoDup [2; 1]%positive
  ∧ (∀ x, reach two_linked (Some 2%positive) x ↔ x ∈ [2; 1]%positive)
  ∧ ∃ h' s', stackClear two_linked {| top := Some 2%positive; count := 7 |} = Some (h', s')
      ∧ count s' = 5%Z ∧ (count s' = 0%Z ↔ 7%Z = 2%Z).
Proof.
  destruct (proj2 stackClear_count two_linked {| top := Some 2%positive; count := 7 |}
              [2; 1]%positive) as (Hnd & Hreach & h' & s' & Hrun & Hcnt).
  { exact (chain_link two_linked 2%positive [1%positive]
             (chain_link two_linked 1%positive [] (chain_end two_linked))). }
  split; [exact Hnd|]. split; [exact Hreach|]. exists h', s'. split; [exact Hrun|].
  apply Hcnt. unfold decr_exact. simpl. lia.
Defined.

Example pushed_twice_state :
  pushed_twice.2 = {| top := Some 1%positive; count := 3 |}
  ∧ get_parent pushed_twice.1 1%positive = Some 2%positive
  ∧ get_parent pushed_twice.1 2%positive = Some 1%positive.
Proof. vm_compute. done. Qed.

(** ** The invariant of the data model *)

Lemma stack_ok_inv h s : stack_ok h s → count_top_inv s.
Proof.
  intros (ns & Hc & Hcnt). unfold count_top_inv.
  rewrite (chain_top_last _ _ _ Hc), Hcnt. destruct ns; simpl; split; try done; lia.
Qed.

Lemma stack_ok_create h : stack_ok h stackCreate.
Proof. exists []. split; [constructor | done]. Qed.

Lemma stack_ok_push h s node :
  stack_ok h s → ¬ reach h (top s) node →
  stack_ok (stackPush h s node).1 (stackPush h s node).2.
Proof.
  intros (ns & Hc & Hcnt) Hnew. exists (node :: ns). split.
  - apply stackPush_chain; [done|]. intros Hin. apply Hnew. by eapply chain_reach.
  - simpl. lia.
Qed.

Lemma stack_ok_pop h s : stack_ok h s → stack_ok (stackPop h s).1.2 (stackPop h s).2.
Proof.
  intros (ns & Hc & Hcnt). destruct ns as [|n ns].
  - pose proof (chain_top_last _ _ _ Hc) as Htop. simpl in Htop.
    unfold stackPop. rewrite Htop. simpl. by exists [].
  - destruct (stackPop_chain _ _ _ _ Hc) as [-> Hc']. exists ns. split; [done|].
    simpl in *. lia.
Qed.

Lemma stack_ok_clear h s h' s' :
  stack_ok h s → stackClear h s = Some (h', s') → stack_ok h' s'.
Proof.
  intros (ns & Hc & Hcnt) Hrun.
  destruct (stackClear_chain h s ns Hc) as (h1 & Hrun' & _).
  rewrite Hrun in Hrun'. injection Hrun' as -> ->.
  exists []. split; [constructor | simpl; lia].
Qed.

Lemma stack_ok_frame h h' s :
  stack_ok h s → (∀ n, reach h (top s) n → get_parent h' n = get_parent h n) →
  stack_ok h' s.
Proof.
  intros (ns & Hc & Hcnt) Hsame. exists ns. split; [|done].
  eapply chain_frame; [done|]. intros x Hx. apply Hsame. by eapply chain_reach.
Qed.

Lemma contract_run_ok h s : contract_run h s → stack_ok h s.
Proof.
  induction 1 as [h|h s node _ IH Hnew|h s _ IH|h s h' s' _ IH Hrun|h h' s _ IH Hsame].
  - apply stack_ok_create.
  - by apply stack_ok_push.
  - by apply stack_ok_pop.
  - by eapply stack_ok_clear.
  - by eapply stack_ok_frame.
Qed.

(** C2: [count = 0] exactly when [top] is the sentinel holds of a fresh
    stack and, for a stack used under the single-linkage contract, of the
    stack itself and of what [stackPush] (of a node not linked into it),
    [stackPop] and [stackClear] make of it. *)
Theorem count_zero_iff_top_empty :
  count_top_inv stackCreate
  ∧ ∀ h s, contract_run h s →
      count_top_inv s
      ∧ (∀ node, ¬ reach h (top s) node → count_top_inv (stackPush h s node).2)
      ∧ count_top_inv (stackPop h s).2
      ∧ ∃ h' s', stackClear h s = Some (h', s') ∧ count_top_inv s'.
Proof.
  split; [exact (stack_ok_inv ∅ _ (stack_ok_create ∅))|].
  intros h s Hrun. pose proof (contract_run_ok h s Hrun) as Hok.
  split; [by apply (stack_ok_inv h)|]. split.
  { intros node Hnew. eapply stack_ok_inv. by apply stack_ok_push. }
  split; [eapply stack_ok_inv; by apply stack_ok_pop|].
  destruct (stackClear_total h s) as [[h' s'] Hclear].
  exists h', s'. split; [done|]. eapply stack_ok_inv. by eapply stack_ok_clear.
Qed.

(** C2 after one push onto a fresh stack. *)
Lemma count_zero_iff_top_empty_witness :
  contract_run (stackPush ∅ stackCreate 1%positive).1 (stackPush ∅ stackCreate 1%positive).2
  ∧ count_top_inv (stackPush ∅ stackCreate 1%positive).2.
Proof.
  assert (Hrun : contract_run (stackPush ∅ stackCreate 1%positive).1
                              (stackPush ∅ stackCreate 1%positive).2).
  { apply run_push; [apply run_create | inversion 1]. }
  split; [exact Hrun|].
  exact (proj1 (proj2 count_zero_iff_top_empty _ _ Hrun)).
Defined.


(** ** stackIsTop and the default comparators *)




(** ** stackDepth *)

Lemma chain_above h pre : ∀ v x suf,
  chain h v (pre ++ x :: suf) → chain h (Some x) (x :: suf).
Proof.
  induction pre as [|p pre IH]; intros v x suf Hc.
  - simpl in Hc. pose proof (chain_top_last _ _ _ Hc) as Hv. by subst v.
  - inversion Hc; subst. by eapply IH.
Qed.

Lemma chain_tail h x suf : chain h (Some x) (x :: suf) → chain h (get_parent h x) suf.
Proof. by inversion 1. Qed.

Lemma stackDepth_loop_chain h ns : ∀ fuel v d,
  chain h v ns → length ns < fuel →
  stackDepth_loop fuel h v d = Some (d + Z.of_nat (length ns))%Z.
Proof.
  induction ns as [|n ns IH]; intros fuel v d Hc Hfuel;
    (destruct fuel as [|fuel]; [simpl in Hfuel; lia|]); inversion Hc; subst; simpl.
  - f_equal. lia.
  - rewrite IH; [f_equal; lia | done | simpl in Hfuel; lia].
Qed.

Lemma stackDepth_chain h node anc fuel :
  chain h (get_parent h node) anc → length anc < fuel →
  stackDepth fuel h node = Some (Z.of_nat (length anc)).
Proof.
  intros Hc Hfuel. unfold stackDepth. by rewrite (stackDepth_loop_chain h anc).
Qed.

Lemma push_three_chain h A B C :
  NoDup [A; B; C] →
  chain (push_all h stackCreate [A; B; C]).1
        (top (push_all h stackCreate [A; B; C]).2) [C; B; A].
Proof.
  intros Hnd.
  destruct (push_all_chain [A; B; C] h stackCreate [] (chain_end h) Hnd) as [Hc _].
  { intros x _. apply not_elem_of_nil. }
  by rewrite app_nil_r in Hc.
Qed.

(** C8: [stackDepth node] is the number of nodes on the parent chain
    strictly above [node]; after pushing A, B, C onto a fresh stack the
    depths of C, B, A are 2, 1, 0. *)
Theorem stackDepth_spec :
  (∀ h node anc fuel,
     chain h (get_parent h node) anc → length anc < fuel →
     stackDepth fuel h node = Some (Z.of_nat (length anc)))
  ∧ (∀ h A B C fuel,
       NoDup [A; B; C] → 2 < fuel →
       let h' := (push_all h stackCreate [A; B; C]).1 in
       stackDepth fuel h' C = Some 2%Z
       ∧ stackDepth fuel h' B = Some 1%Z
       ∧ stackDepth fuel h' A = Some 0%Z).
Proof.
  split; [apply stackDepth_chain|].
  intros h A B C fuel Hnd Hfuel h'.
  pose proof (push_three_chain h A B C Hnd) as Hc. fold h' in Hc.
  split; [|split].
  - apply (stackDepth_chain h' C [B; A]); [|simpl; lia].
    by apply (chain_above h' [] _ C [B; A]), chain_tail in Hc.
  - apply (stackDepth_chain h' B [A]); [|simpl; lia].
    by apply (chain_above h' [C] _ B [A]), chain_tail in Hc.
  - apply (stackDepth_chain h' A []); [|simpl; lia].
    by apply (chain_above h' [C; B] _ A []), chain_tail in Hc.
Qed.

(** C8 on nodes 1, 2, 3 pushed onto an empty store, and on [two_linked]. *)
Lemma stackDepth_spec_witness :
  (let h' := (push_all ∅ stackCreate [1; 2; 3]%positive).1 in
   stackDepth 3 h' 3%positive = Some 2%Z
   ∧ stackDepth 3 h' 2%positive = Some 1%Z
   ∧ stackDepth 3 h' 1%positive = Some 0%Z)
  ∧ stackDepth 2 two_linked 2%positive = Some 1%Z.
Proof.
  split.
  - apply (proj2 stackDepth_spec ∅ 1%positive 2%positive 3%positive 3);
      [compute_done | lia].
  - apply (proj1 stackDepth_spec two_linked 2%positive [1%positive] 2);
      [|simpl; lia].
    exact (chain_link two_linked 1%positive [] (chain_end two_linked)).
Defined.

(** ** Traversals *)

Lemma gen_next_entry h g :
  gen_next h g =
  match entry h g with
  | Some n => (Some n, Suspended n)
  | None => (None, Finished)
  end.
Proof.
  unfold entry, gen_next.
  by destruct g; simpl; try destruct (top _); try destruct (get_parent _ _).
Qed.

Lemma entry_suspended h n : entry h (Suspended n) = get_parent h n.
Proof. unfold entry, gen_next. by destruct (get_parent h n). Qed.

Lemma entry_iterator h s : entry h (stackIterator s) = top s.
Proof. unfold entry, gen_next. simpl. by destruct (top s). Qed.

Lemma entry_from h node : entry h (stackIterateFrom node) = Some node.
Proof. done. Qed.

Lemma entry_to_parent h node : entry h (stackIterateToParent node) = get_parent h node.
Proof. unfold entry, gen_next. simpl. by destruct (get_parent h node). Qed.

Lemma collect_chain h ns : ∀ fuel g,
  chain h (entry h g) ns → length ns < fuel → collect fuel h g = Some ns.
Proof.
  induction ns as [|n ns IH]; intros fuel g Hc Hfuel;
    (destruct fuel as [|fuel]; [simpl in Hfuel; lia|]);
    cbn [collect]; rewrite gen_next_entry; inversion Hc as [He|? ? Ht He]; [done|].
  rewrite (IH fuel (Suspended n)); [done| |simpl in Hfuel; lia].
  by rewrite entry_suspended.
Qed.

Lemma collect_sound h fuel : ∀ g ns,
  collect fuel h g = Some ns → chain h (entry h g) ns.
Proof.
  induction fuel as [|fuel IH]; intros g ns Hrun; [done|].
  cbn [collect] in Hrun. rewrite gen_next_entry in Hrun.
  destruct (entry h g) as [n|] eqn:He.
  - destruct (collect fuel h (Suspended n)) as [ns'|] eqn:Hrest; [|done].
    injection Hrun as <-. constructor. rewrite <- entry_suspended. by apply IH.
  - injection Hrun as <-. constructor.
Qed.

(** C9: every traversal yields the nodes of the parent chain from its
    start down to the sentinel; [stackIterateFrom] on the top of a stack
    yields what [stackIterator] yields; and after pushing A, B, C onto a
    fresh stack the three traversals yield [C, B, A], [B, A] from B, and
    [A] above B. *)
Theorem traversals_spec :
  (∀ h s ns fuel, chain h (top s) ns → length ns < fuel →
     collect fuel h (stackIterator s) = Some ns)
  ∧ (∀ h node ns fuel, chain h (Some node) ns → length ns < fuel →
       collect fuel h (stackIterateFrom node) = Some ns)
  ∧ (∀ h node ns fuel, chain h (get_parent h node) ns → length ns < fuel →
       collect fuel h (stackIterateToParent node) = Some ns)
  ∧ (∀ h s n fuel, top s = Some n →
       collect fuel h (stackIterateFrom n) = collect fuel h (stackIterator s))
  ∧ (∀ h A B C fuel,
       NoDup [A; B; C] → 3 < fuel →
       let st := push_all h stackCreate [A; B; C] in
       collect fuel st.1 (stackIterator st.2) = Some [C; B; A]
       ∧ collect fuel st.1 (stackIterateFrom B) = Some [B; A]
       ∧ collect fuel st.1 (stackIterateToParent B) = Some [A]).
Proof.
  split; [|split; [|split; [|split]]].
  - intros h s ns fuel Hc Hfuel. apply collect_chain; [|done].
    by rewrite entry_iterator.
  - intros h node ns fuel Hc Hfuel. by apply collect_chain.
  - intros h node ns fuel Hc Hfuel. apply collect_chain; [|done].
    by rewrite entry_to_parent.
  - intros h s n [|fuel] Htop; [done|]. cbn [collect].
    rewrite !gen_next_entry, entry_iterator, entry_from. by rewrite Htop.
  - intros h A B C fuel Hnd Hfuel st.
    pose proof (push_three_chain h A B C Hnd) as Hc. fold st in Hc.
    pose proof (chain_above st.1 [C] _ B [A] Hc) as HcB.
    split; [|split]; apply collect_chain; rewrite ?entry_iterator, ?entry_to_parent;
      try (simpl; lia); [done | done | by apply chain_tail in HcB].
Qed.

(** C9 on nodes 1, 2, 3 pushed onto an empty store, and on [two_linked]. *)
Lemma traversals_spec_witness :
  (let st := push_all ∅ stackCreate [1; 2; 3]%positive in
   collect 4 st.1 (stackIterator st.2) = Some [3; 2; 1]%positive
   ∧ collect 4 st.1 (stackIterateFrom 2%positive) = Some [2; 1]%positive
   ∧ collect 4 st.1 (stackIterateToParent 2%positive) = Some [1]%positive)
  ∧ collect 3 two_linked (stackIterator {| top := Some 2%positive; count := 2 |})
    = Some [2; 1]%positive
  ∧ collect 2 two_linked (stackIterateFrom 1%positive) = Some [1%positive]
  ∧ collect 2 two_linked (stackIterateToParent 2%positive) = Some [1%positive]
  ∧ collect 3 two_linked (stackIterateFrom 2%positive)
    = collect 3 two_linked (stackIterator {| top := Some 2%positive; count := 2 |}).
Proof.
  pose proof (chain_link two_linked 1%positive [] (chain_end two_linked)) as Hc1.
  pose proof (chain_link two_linked 2%positive [1%positive] Hc1) as Hc2.
  destruct traversals_spec as (Hiter & Hfrom & Habove & Hsame & Hthree).
  split; [|split; [|split; [|split]]].
  - apply (Hthree ∅ 1%positive 2%positive 3%positive 4); [compute_done | lia].
  - apply (Hiter two_linked {| top := Some 2%positive; count := 2 |} [2; 1]%positive 3);
      [exact Hc2 | simpl; lia].
  - apply (Hfrom two_linked 1%positive [1%positive] 2); [exact Hc1 | simpl; lia].
  - apply (Habove two_linked 2%positive [1%positive] 2); [exact Hc1 | simpl; lia].
  - apply (Hsame two_linked {| top := Some 2%positive; count := 2 |} 2%positive 3).
    reflexivity.
Defined.

(** ** stackQuery *)

Lemma query_inner_all fn n : query_inner fn n = true ↔ ∀ f, f ∈ fn → f n = true.
Proof.
  induction fn as [|f fn IH]; simpl.
  - split; [by intros _ f ?%elem_of_nil | done].
  - destruct (f n) eqn:Hf.
    + rewrite IH. split.
      * intros Hall g [->|Hg]%elem_of_cons; [done | by apply Hall].
      * intros Hall g Hg. by apply Hall, list_elem_of_further.
    + split; [done|]. intros Hall. rewrite <- Hf. apply Hall, list_elem_of_here.
Qed.

Lemma stackQuery_loop_chain h fn ns : ∀ fuel g r,
  chain h (entry h g) ns → length ns < fuel →
  ∃ r', stackQuery_loop fuel h g fn r = Some r'
    ∧ ∀ x, x ∈ r' ↔ x ∈ r ∨ (x ∈ ns ∧ query_inner fn x = true).
Proof.
  induction ns as [|n ns IH]; intros fuel g r Hc Hfuel;
    (destruct fuel as [|fuel]; [simpl in Hfuel; lia|]);
    cbn [stackQuery_loop]; rewrite gen_next_entry; inversion Hc as [He|? ? Ht He].
  - exists r. split; [done|]. intros x. rewrite elem_of_nil. tauto.
  - assert (Hc' : chain h (entry h (Suspended n)) ns) by by rewrite entry_suspended.
    assert (Hfuel' : length ns < fuel) by (simpl in Hfuel; lia).
    destruct (query_inner fn n) eqn:Hq.
    + destruct (IH fuel (Suspended n) ({[n]} ∪ r) Hc' Hfuel') as (r' & -> & Hr').
      exists r'. split; [done|]. intros x. rewrite Hr', elem_of_cons.
      rewrite elem_of_union, elem_of_singleton. split.
      * intros [[->|?]|[? ?]]; auto.
      * intros [?|[[->|?] ?]]; auto.
    + destruct (IH fuel (Suspended n) r Hc' Hfuel') as (r' & -> & Hr').
      exists r'. split; [done|]. intros x. rewrite Hr', elem_of_cons.
      split; [intros [?|[? ?]]; auto|].
      intros [?|[[->|?] ?]]; auto. congruence.
Qed.

(** C7: on a stack whose [count] nodes form the chain [ns], [stackQuery]
    returns the set of the nodes reachable from [top] that satisfy every
    predicate; without predicates that is the set of all linked nodes and
    its size is [count]; with a predicate that is always false it is
    empty. *)
Theorem stackQuery_spec (h : heap) (s : Stack) (ns : list loc)
    (fn : list (loc → bool)) (fuel : nat) :
  chain h (top s) ns → count s = Z.of_nat (length ns) → length ns < fuel →
  ∃ r, stackQuery fuel h s fn = Some r
    ∧ (∀ x, x ∈ r ↔ reach h (top s) x ∧ ∀ f, f ∈ fn → f x = true)
    ∧ (fn = [] → (∀ x, x ∈ r ↔ reach h (top s) x) ∧ Z.of_nat (size r) = count s)
    ∧ (∀ f, f ∈ fn → (∀ x, f x = false) → r = ∅).
Proof.
  intros Hc Hcnt Hfuel.
  destruct (stackQuery_loop_chain h fn ns fuel (stackIterator s) ∅) as (r & Hrun & Hr);
    [by rewrite entry_iterator | done |].
  assert (Hmem : ∀ x, x ∈ r ↔ reach h (top s) x ∧ ∀ f, f ∈ fn → f x = true).
  { intros x. rewrite Hr, (chain_reach h _ ns x Hc), query_inner_all, elem_of_empty.
    tauto. }
  exists r. split; [done|]. split; [done|]. split.
  - intros ->. assert (Hall : ∀ x, x ∈ r ↔ reach h (top s) x).
    { intros x. rewrite Hmem. split; [tauto|]. intros Hx. split; [done|].
      by intros f ?%elem_of_nil. }
    split; [done|]. rewrite Hcnt. f_equal.
    assert (r = list_to_set ns) as ->.
    { apply set_eq. intros x.
      by rewrite Hall, elem_of_list_to_set, (chain_reach h _ ns x Hc). }
    apply size_list_to_set. by eapply chain_NoDup.
  - intros f Hf Hnever. apply set_eq. intros x. rewrite Hmem. split.
    + intros [_ Hall]. specialize (Hall f Hf). by rewrite Hnever in Hall.
    + by intros ?%not_elem_of_empty.
Qed.

(** C7 on [two_linked] with the predicate "is not node 2". *)
Lemma stackQuery_spec_witness :
  ∃ r, stackQuery 3 two_linked {| top := Some 2%positive; count := 2 |}
         [λ n, negb (Pos.eqb n 2)] = Some r
    ∧ (∀ x, x ∈ r ↔ reach two_linked (Some 2%positive) x
                    ∧ ∀ f, f ∈ [λ n, negb (Pos.eqb n 2)] → f x = true)
    ∧ ([λ n, negb (Pos.eqb n 2)] = []
       → (∀ x, x ∈ r ↔ reach two_linked (Some 2%positive) x) ∧ Z.of_nat (size r) = 2%Z)
    ∧ (∀ f, f ∈ [λ n, negb (Pos.eqb n 2)] → (∀ x, f x = false) → r = ∅).
Proof.
  apply (stackQuery_spec two_linked {| top := Some 2%positive; count := 2 |}
           [2; 1]%positive [λ n, negb (Pos.eqb n 2)] 3).
  - exact (chain_link two_linked 2%positive [1%positive]
             (chain_link two_linked 1%positive [] (chain_end two_linked))).
  - reflexivity.
  - simpl. lia.
Defined.

Example stackQuery_two_linked :
  stackQuery 3 two_linked {| top := Some 2%positive; count := 2 |} [] = Some {[1; 2]}%positive
  ∧ stackQuery 3 two_linked {| top := Some 2%positive; count := 2 |}
      [λ n, negb (Pos.eqb n 2)] = Some {[1%positive]}
  ∧ stackQuery 3 two_linked {| top := Some 2%positive; count := 2 |}
      [λ _, true; λ _, false] = Some ∅.
Proof. vm_compute. done. Qed.

End StackProps.

(** * The two revisions agree *)
Module StackEquiv.
Import StackRel.

Lemma ref_sn_ts v : ref_sn (ref_ts v) = v.
Proof. by destruct v. Qed.


Lemma heap_sn_ts (h : StackSn.heap) : heap_sn (heap_ts h) = h.
Proof.
  unfold heap_sn, heap_ts. rewrite <- map_fmap_compose.
  rewrite <- (map_fmap_id h) at 2. apply map_fmap_ext.
  intros n [v] _. unfold node_sn, node_ts. simpl. by rewrite ref_sn_ts.
Qed.

Lemma stack_sn_ts (s : StackSn.Stack) : stack_sn (stack_ts s) = s.
Proof. destruct s as [t c]. unfold stack_sn, stack_ts. simpl. by rewrite ref_sn_ts. Qed.

Lemma get_parent_sn (h : StackTs.heap) n :
  StackSn.get_parent (heap_sn h) n = ref_sn (StackTs.get_parent h n).
Proof.
  unfold StackSn.get_parent, StackTs.get_parent, heap_sn. rewrite lookup_fmap.
  by destruct (h !! n).
Qed.

Lemma set_parent_sn (h : StackTs.heap) n v :
  StackSn.set_parent (heap_sn h) n (ref_sn v) = heap_sn (StackTs.set_parent h n v).
Proof. unfold StackSn.set_parent, StackTs.set_parent, heap_sn. by rewrite fmap_insert. Qed.



Lemma stackPop_sn h s :
  StackSn.stackPop (heap_sn h) (stack_sn s)
  = (ref_sn (StackTs.stackPop h s).1.1, heap_sn (StackTs.stackPop h s).1.2,
     stack_sn (StackTs.stackPop h s).2).
Proof.
  unfold StackSn.stackPop, StackTs.stackPop. destruct s as [[n|] c]; [|done].
  cbn [stack_sn ref_sn StackSn.top StackTs.top StackSn.count StackTs.count fst snd].
  pose proof (set_parent_sn h n None) as Hreset. cbn [ref_sn] in Hreset.
  by rewrite Hreset, get_parent_sn.
Qed.

Lemma stackClear_loop_sn fuel : ∀ h s,
  StackSn.stackClear_loop fuel (heap_sn h) (stack_sn s)
  = state_sn <$> StackTs.stackClear_loop fuel h s.
Proof.
  induction fuel as [|fuel IH]; intros h s; [done|]. simpl.
  rewrite stackPop_sn. destruct (StackTs.stackPop h s) as [[r h1] s1]. simpl.
  destruct (StackTs.top s); simpl; [apply IH | done].
Qed.

Lemma stackClear_sn h s :
  StackSn.stackClear (heap_sn h) (stack_sn s) = state_sn <$> StackTs.stackClear h s.
Proof.
  unfold StackSn.stackClear, StackTs.stackClear.
  rewrite <- stackClear_loop_sn. unfold heap_sn at 1. by rewrite map_size_fmap.
Qed.
















(** The default comparators themselves are not the same function: on two
    distinct nodes with [a > b], [Stack.ts] answers 1 and the other
    revision -1. *)
Example StackCompareFn_differ :
  StackTs.StackCompareFn (λ _ _, Some true) 1%positive 2%positive = Returns 1%Z
  ∧ StackSn.StackCompareFn 1%positive 2%positive = Returns (-1)%Z.
Proof. done. Qed.

End StackEquiv.

(** * Further properties of the two revisions *)
Module StackMore.
Import StackTs StackSpec StackExamples StackShapes StackProps StackRel StackEquiv.

(** ** Round trips of push and pop *)

Lemma sn_get_set_parent_eq (h : StackSn.heap) n v :
  StackSn.get_parent (StackSn.set_parent h n v) n = v.
Proof. unfold StackSn.get_parent, StackSn.set_parent. by rewrite lookup_insert_eq. Qed.

(** X1: in both revisions a push followed at once by a pop returns the
    node pushed, gives back the stack exactly as it was, leaves the node
    with its [parent] reset to the empty marker, and changes no other
    node.  Nothing is assumed of the store or the node, and of the stack
    only that its [count] can be stepped up exactly. *)
Theorem push_then_pop :
  (∀ (h : heap) s node,
     incr_exact (count s) 1 →
     let st := stackPush h s node in
     ∃ h', stackPop st.1 st.2 = (Some node, h', s)
       ∧ get_parent h' node = sentinel
       ∧ ∀ m, m ≠ node → h' !! m = h !! m)
  ∧ (∀ (h : StackSn.heap) s node,
       incr_exact (StackSn.count s) 1 →
       let st := StackSn.stackPush h s node in
       ∃ h', StackSn.stackPop st.1 st.2 = (StackSn.Node node, h', s)
         ∧ StackSn.get_parent h' node = StackSn.SentinelNode
         ∧ ∀ m, m ≠ node → h' !! m = h !! m).
Proof.
  split.
  - intros h [t c] node _ st. eexists. split; [|split].
    + unfold st, stackPop, stackPush. cbn [fst snd top count].
      rewrite get_set_parent_eq. do 2 f_equal. lia.
    + apply get_set_parent_eq.
    + intros m Hm. unfold set_parent. by rewrite !lookup_insert_ne.
  - intros h [t c] node _ st. eexists. split; [|split].
    + unfold st, StackSn.stackPop, StackSn.stackPush.
      cbn [fst snd StackSn.top StackSn.count].
      rewrite sn_get_set_parent_eq. do 2 f_equal. lia.
    + apply sn_get_set_parent_eq.
    + intros m Hm. unfold StackSn.set_parent. by rewrite !lookup_insert_ne.
Qed.

(** X1 when node 3 is pushed onto the stack of [two_linked] and popped. *)
Lemma push_then_pop_witness :
  let st := stackPush two_linked {| top := Some 2%positive; count := 2 |} 3%positive in
  ∃ h', stackPop st.1 st.2
        = (Some 3%positive, h', {| top := Some 2%positive; count := 2 |})
    ∧ get_parent h' 3%positive = sentinel
    ∧ ∀ m, m ≠ 3%positive → h' !! m = two_linked !! m.
Proof.
  apply (proj1 push_then_pop two_linked {| top := Some 2%positive; count := 2 |}
           3%positive).
  unfold incr_exact. simpl. lia.
Defined.

(** X2: popping the top node [n] and pushing it straight back restores
    the stack and the store exactly, provided [n] is an object of the
    store and [count] can be stepped down exactly. *)
Theorem pop_then_push (h : heap) (s : Stack) (n : loc) :
  top s = Some n → is_Some (h !! n) → decr_exact (count s) 1 →
  (stackPop h s).1.1 = Some n
  ∧ stackPush (stackPop h s).1.2 (stackPop h s).2 n = (h, s).
Proof.
  intros Htop [[p] Hn] _. destruct s as [t c]. simpl in Htop. subst t.
  unfold stackPop, stackPush, set_parent, get_parent. cbn [fst snd top count].
  rewrite Hn. cbn [parent]. split; [done|].
  rewrite insert_insert_eq, (insert_id h n _ Hn). do 2 f_equal. lia.
Qed.

Lemma pop_then_push_witness :
  (stackPop two_linked {| top := Some 2%positive; count := 2 |}).1.1 = Some 2%positive
  ∧ stackPush (stackPop two_linked {| top := Some 2%positive; count := 2 |}).1.2
              (stackPop two_linked {| top := Some 2%positive; count := 2 |}).2 2%positive
    = (two_linked, {| top := Some 2%positive; count := 2 |}).
Proof.
  apply (pop_then_push two_linked {| top := Some 2%positive; count := 2 |} 2%positive).
  - reflexivity.
  - by eexists.
  - unfold decr_exact. simpl. lia.
Defined.

(** ** stackClear on arbitrary states *)

Lemma stackClear_loop_result fuel : ∀ h s h' s',
  stackClear_loop fuel h s = Some (h', s') →
  top s' = sentinel
  ∧ ∀ x, get_parent h' x = sentinel ∨ h' !! x = h !! x.
Proof.
  induction fuel as [|fuel IH]; intros h s h' s' Hrun; [done|].
  rewrite stackClear_loop_S in Hrun.
  destruct (top s) as [n|] eqn:Htop; cbn [guard] in Hrun.
  - apply IH in Hrun as [Hend Hres]. split; [done|]. intros x.
    destruct (Hres x) as [Hx|Hx]; [by left|].
    unfold stackPop in Hx. rewrite Htop in Hx. cbn [fst snd] in Hx.
    destruct (decide (x = n)) as [->|Hne].
    + left. unfold get_parent at 1. rewrite Hx. apply get_set_parent_eq.
    + right. rewrite Hx. unfold set_parent. by rewrite lookup_insert_ne.
  - injection Hrun as <- <-. split; [done|]. by right.
Qed.

(** X3: in both revisions [stackClear] returns on every store and every
    stack, cyclic parent links included, and leaves [top] empty.  In
    [Stack.ts] it moreover only ever resets [parent] fields (each node is
    either untouched or unlinked), and clearing or popping again changes
    nothing. *)
Theorem stackClear_always_empties :
  (∀ (h : heap) s, ∃ h' s',
     stackClear h s = Some (h', s')
     ∧ top s' = sentinel
     ∧ (∀ x, get_parent h' x = sentinel ∨ h' !! x = h !! x)
     ∧ stackClear h' s' = Some (h', s')
     ∧ stackPop h' s' = (None, h', s'))
  ∧ (∀ (h : StackSn.heap) s, ∃ h' s',
       StackSn.stackClear h s = Some (h', s')
       ∧ StackSn.top s' = StackSn.SentinelNode).
Proof.
  assert (Hts : ∀ (h : heap) s, ∃ h' s',
    stackClear h s = Some (h', s') ∧ top s' = sentinel
    ∧ ∀ x, get_parent h' x = sentinel ∨ h' !! x = h !! x).
  { intros h s. destruct (stackClear_total h s) as [[h' s'] Hrun].
    exists h', s'. split; [done|]. by apply (stackClear_loop_result _ _ _ _ _ Hrun). }
  split.
  - intros h s. destruct (Hts h s) as (h' & s' & Hrun & Hend & Hres).
    exists h', s'. split; [done|]. split; [done|]. split; [done|].
    unfold stackClear, stackPop. rewrite Nat.add_comm. cbn [Nat.add stackClear_loop].
    by rewrite Hend.
  - intros h s. destruct (Hts (heap_ts h) (stack_ts s)) as (h' & s' & Hrun & Hend & _).
    exists (heap_sn h'), (stack_sn s'). split.
    + rewrite <- (heap_sn_ts h), <- (stack_sn_ts s) at 1.
      by rewrite stackClear_sn, Hrun.
    + unfold stack_sn. cbn [StackSn.top]. by rewrite Hend.
Qed.

(** ** Segments and loops *)

Lemma segment_frame h h' v ns w :
  segment h v ns w → (∀ x, x ∈ ns → get_parent h' x = get_parent h x) →
  segment h' v ns w.
Proof.
  induction 1 as [|n ns w Hs IH]; intros Hsame; constructor.
  rewrite Hsame by apply list_elem_of_here.
  apply IH. intros x Hx. apply Hsame. by apply list_elem_of_further.
Qed.

Lemma segment_chain h v ns : segment h v ns sentinel ↔ chain h v ns.
Proof.
  split.
  - intros Hs. remember sentinel as w eqn:Hw.
    induction Hs as [|n ns w Hs IH]; [subst; constructor|]. constructor. by apply IH.
  - induction 1; by constructor.
Qed.

Lemma segment_app h v ns w ms u :
  segment h v ns w → segment h w ms u → segment h v (ns ++ ms) u.
Proof. induction 1; intros Hm; [done|]. simpl. constructor. by apply IHsegment. Qed.

Lemma stackClear_loop_segment ns : ∀ h s w fuel,
  segment h (top s) ns w → NoDup ns →
  ∃ h', stackClear_loop (length ns + fuel) h s
        = stackClear_loop fuel h' {| top := w; count := count s - Z.of_nat (length ns) |}
    ∧ (∀ x, x ∈ ns → get_parent h' x = sentinel)
    ∧ (∀ x, x ∉ ns → h' !! x = h !! x).
Proof.
  induction ns as [|n ns IH]; intros h s w fuel Hseg Hnd.
  - inversion Hseg as [? Hv Hw|]. subst w. exists h. simpl.
    split; [|split; [by intros x ?%elem_of_nil | done]].
    destruct s as [t c]. simpl. do 2 f_equal. lia.
  - inversion Hseg as [|? ? ? Hseg' Htop]; subst.
    apply NoDup_cons in Hnd as [Hn Hnd].
    cbn [length Nat.add]. rewrite stackClear_loop_S, <- Htop.
    unfold stackPop. rewrite <- Htop. cbn [guard fst snd].
    destruct (IH (set_parent h n sentinel)
                 {| top := get_parent h n; count := count s - 1 |} w fuel)
      as (h' & Hrun & Hreset & Hrest); [|done|].
    { eapply segment_frame; [exact Hseg'|].
      intros x Hx. apply get_set_parent_ne. by intros ->. }
    exists h'. rewrite Hrun. cbn [count]. split; [do 2 f_equal; lia|]. split.
    + intros x [->|Hx]%elem_of_cons; [|by apply Hreset].
      unfold get_parent at 1. rewrite (Hrest _ Hn).
      apply (get_set_parent_eq h n sentinel).
    + intros x [Hxn Hx]%not_elem_of_cons. rewrite (Hrest _ Hx).
      unfold set_parent. by rewrite lookup_insert_ne.
Qed.

(** X4: when the parent links from [top] run through the distinct nodes
    [ns] and then come back to one of them (a loop, as left by pushing a
    node that is already linked), [stackClear] still returns: it unlinks
    every node of [ns], leaves [top] empty, and has lowered [count] by
    one more than the number of nodes, because the node where the loop
    closes is popped twice ([count] being one that can be stepped down
    that many times exactly). *)
Theorem stackClear_loop_shape (h : heap) (s : Stack) (ns : list loc) (m : loc) :
  segment h (top s) ns (Some m) → NoDup ns → m ∈ ns →
  decr_exact (count s) (S (length ns)) →
  ∃ h', stackClear h s
        = Some (h', {| top := sentinel; count := count s - Z.of_nat (length ns) - 1 |})
    ∧ (∀ x, x ∈ ns → get_parent h' x = sentinel)
    ∧ (∀ x, x ∉ ns → h' !! x = h !! x).
Proof.
  intros Hseg Hnd Hm _.
  destruct (stackClear_loop_segment ns h s (Some m) 2 Hseg Hnd)
    as (h1 & Hrun & Hreset & Hrest).
  exists (set_parent h1 m sentinel). split; [|split].
  - destruct (stackClear_total h s) as [r Hr]. rewrite Hr. f_equal.
    eapply stackClear_loop_agree; [exact Hr|]. rewrite Hrun.
    cbn [stackClear_loop guard top]. unfold stackPop. cbn [top count].
    by rewrite (Hreset m Hm).
  - intros x Hx. destruct (decide (x = m)) as [->|Hne].
    + apply get_set_parent_eq.
    + rewrite get_set_parent_ne by done. by apply Hreset.
  - intros x Hx. unfold set_parent. rewrite lookup_insert_ne; [by apply Hrest|].
    by intros ->.
Qed.

(** X4 on the loop left by push 1, push 2, push 1. *)
Lemma stackClear_loop_shape_witness :
  ∃ h', stackClear pushed_twice.1 {| top := Some 1%positive; count := 3 |}
        = Some (h', {| top := sentinel; count := 3 - 2 - 1 |})
    ∧ (∀ x, x ∈ [1; 2]%positive → get_parent h' x = sentinel)
    ∧ (∀ x, x ∉ [1; 2]%positive → h' !! x = pushed_twice.1 !! x).
Proof.
  apply (stackClear_loop_shape pushed_twice.1 {| top := Some 1%positive; count := 3 |}
           [1; 2]%positive 1%positive).
  - exact (segment_link pushed_twice.1 1%positive [2%positive] (Some 1%positive)
             (segment_link pushed_twice.1 2%positive [] (Some 1%positive)
                (segment_stop pushed_twice.1 (Some 1%positive)))).
  - compute_done.
  - compute_done.
  - unfold decr_exact. simpl. lia.
Defined.

(** ** stackHas *)

Lemma stackHas_loop_chain h ns (node : loc) (compare : loc → loc → completion Z) :
  (∀ x, x ∈ ns → ∃ z, compare x node = Returns z) →
  ∀ fuel g,
    chain h (entry h g) ns → length ns < fuel →
    ∃ b, stackHas_loop fuel h g node compare = Some (Returns b)
      ∧ (b = true ↔ ∃ x, x ∈ ns ∧ compare x node = Returns 0%Z).
Proof.
  induction ns as [|n ns IH]; intros Hret fuel g Hc Hfuel;
    (destruct fuel as [|fuel]; [simpl in Hfuel; lia|]);
    cbn [stackHas_loop]; rewrite gen_next_entry;
    inversion Hc as [He|? ? Ht He].
  - exists false. split; [done|]. split; [done|].
    by intros (x & []%elem_of_nil & _).
  - destruct (Hret n (list_elem_of_here _ _)) as [z Hz]. rewrite Hz.
    destruct (Z.eqb_spec 0 z) as [<-|Hnz].
    + exists true. split; [done|]. split; [|done]. intros _.
      exists n. split; [apply list_elem_of_here | done].
    + destruct (IH (λ x Hx, Hret x (list_elem_of_further _ _ _ Hx)) fuel (Suspended n))
        as (b & Hrun & Hb); [by rewrite entry_suspended | simpl in Hfuel; lia |].
      exists b. split; [done|]. rewrite Hb. split.
      * intros (x & Hx & Hx0). exists x. split; [by apply list_elem_of_further | done].
      * intros (x & [->|Hx]%elem_of_cons & Hx0); [congruence|]. by exists x.
Qed.

Lemma stackHas_default_chain h s ns (node : loc) js_gt fuel :
  chain h (top s) ns → length ns < fuel →
  (∀ x, x ∈ ns → x ≠ node → is_Some (js_gt x node)) →
  stackHas fuel h s node (StackCompareFn js_gt)
  = Some (Returns (bool_decide (node ∈ ns))).
Proof.
  intros Hc Hfuel Hdef.
  destruct (stackHas_loop_chain h ns node (StackCompareFn js_gt)) with
    (fuel := fuel) (g := stackIterator s) as (b & Hrun & Hb);
    [|by rewrite entry_iterator|done|].
  { intros x Hx. unfold StackCompareFn.
    destruct (decide (x = node)) as [|Hne]; [by eexists|].
    destruct (Hdef x Hx Hne) as [[] ->]; by eexists. }
  unfold stackHas. rewrite Hrun. do 2 f_equal.
  assert (b = true ↔ node ∈ ns) as Hiff.
  { rewrite Hb. split.
    - intros (x & Hx & Hz). unfold StackCompareFn in Hz.
      destruct (decide (x = node)) as [->|]; [done|].
      by destruct (js_gt x node) as [[]|].
    - intros Hin. exists node. split; [done|]. unfold StackCompareFn.
      by rewrite decide_True. }
  destruct b.
  - symmetry. apply bool_decide_eq_true_2. by apply Hiff.
  - symmetry. apply bool_decide_eq_false_2. intros Hin. by apply Hiff in Hin.
Qed.

(** X5: on a stack whose parent chain from [top] ends at the sentinel,
    and with a comparator that returns on the linked nodes, [stackHas]
    returns true exactly when some linked node compares as 0 with the
    given node; with the default comparator (and [a > b] evaluable
    between the linked nodes and the given one), exactly when the given
    node itself is linked into the stack. *)
Theorem stackHas_spec (h : heap) (s : Stack) (ns : list loc) (node : loc) (fuel : nat) :
  chain h (top s) ns → length ns < fuel →
  (∀ compare,
     (∀ x, reach h (top s) x → ∃ z, compare x node = Returns z) →
     ∃ b, stackHas fuel h s node compare = Some (Returns b)
       ∧ (b = true ↔ ∃ x, reach h (top s) x ∧ compare x node = Returns 0%Z))
  ∧ (∀ js_gt,
       (∀ x, reach h (top s) x → x ≠ node → is_Some (js_gt x node)) →
       ∃ b, stackHas fuel h s node (StackCompareFn js_gt) = Some (Returns b)
         ∧ (b = true ↔ reach h (top s) node)).
Proof.
  intros Hc Hfuel. split.
  - intros compare Hret.
    destruct (stackHas_loop_chain h ns node compare) with
      (fuel := fuel) (g := stackIterator s) as (b & Hrun & Hb);
      [|by rewrite entry_iterator|done|].
    { intros x Hx. apply Hret. by eapply chain_reach. }
    exists b. split; [done|]. rewrite Hb.
    split; intros (x & Hx & Hz); exists x; (split; [|done]); by eapply chain_reach.
  - intros js_gt Hdef. eexists. split.
    + apply (stackHas_default_chain h s ns); [done | done |].
      intros x Hx. apply Hdef. by eapply chain_reach.
    + rewrite bool_decide_eq_true. symmetry. by apply chain_reach.
Qed.

Lemma stackHas_spec_witness :
  ∃ b, stackHas 3 two_linked {| top := Some 2%positive; count := 2 |} 1%positive
         (StackCompareFn (λ _ _, Some false)) = Some (Returns b)
    ∧ (b = true ↔ reach two_linked (Some 2%positive) 1%positive).
Proof.
  apply (proj2 (stackHas_spec two_linked {| top := Some 2%positive; count := 2 |}
                  [2; 1]%positive 1%positive 3
                  (chain_link two_linked 2%positive [1%positive]
                     (chain_link two_linked 1%positive [] (chain_end two_linked)))
                  ltac:(simpl; lia))
           (λ _ _, Some false)).
  intros x _ _. by eexists.
Defined.

Lemma stackHas_loop_finds h (node : loc) (compare : loc → loc → completion Z) v x :
  reach h v x → compare x node = Returns 0%Z →
  (∀ a, reach h v a → compare a node ≠ Throws) →
  ∀ g, entry h g = v →
  ∃ fuel0, ∀ fuel, fuel0 ≤ fuel →
    stackHas_loop fuel h g node compare = Some (Returns true).
Proof.
  intros Hr Hz. induction Hr as [n|n m Hr IH]; intros Hret g Hg.
  - exists 1. intros [|fuel] Hfuel; [lia|].
    cbn [stackHas_loop]. by rewrite gen_next_entry, Hg, Hz.
  - destruct (compare n node) as [z|] eqn:Hn;
      [|by destruct (Hret n (reach_here h n))].
    destruct (0 =? z)%Z eqn:Hzero.
    + exists 1. intros [|fuel] Hfuel; [lia|].
      cbn [stackHas_loop]. by rewrite gen_next_entry, Hg, Hn, Hzero.
    + destruct (IH Hz (λ a Ha, Hret a (reach_up h n a Ha))
                  (Suspended n) (entry_suspended h n)) as (fuel0 & Hfuel0).
      exists (S fuel0). intros [|fuel] Hfuel; [lia|].
      cbn [stackHas_loop]. rewrite gen_next_entry, Hg, Hn, Hzero. apply Hfuel0. lia.
Qed.

(** X6: [stackHas] returns at its first match, so it returns true
    whenever a matching node can be reached from [top] and the comparator
    does not raise on the nodes reachable from [top], also when the
    parent links are cyclic and a full traversal would never end. *)
Theorem stackHas_finds_reachable (h : heap) (s : Stack) (node x : loc)
    (compare : loc → loc → completion Z) :
  reach h (top s) x → compare x node = Returns 0%Z →
  (∀ a, reach h (top s) a → compare a node ≠ Throws) →
  ∃ fuel0, ∀ fuel, fuel0 ≤ fuel →
    stackHas fuel h s node compare = Some (Returns true).
Proof.
  intros Hr Hz Hret. unfold stackHas.
  apply (stackHas_loop_finds h node compare (top s) x Hr Hz Hret).
  apply entry_iterator.
Qed.

(** X6 on the loop left by push 1, push 2, push 1: node 2 is found. *)
Lemma stackHas_finds_reachable_witness :
  ∃ fuel0, ∀ fuel, fuel0 ≤ fuel →
    stackHas fuel pushed_twice.1 {| top := Some 1%positive; count := 3 |} 2%positive
      (StackCompareFn (λ _ _, Some false)) = Some (Returns true).
Proof.
  apply (stackHas_finds_reachable pushed_twice.1 {| top := Some 1%positive; count := 3 |}
           2%positive 2%positive (StackCompareFn (λ _ _, Some false))).
  - exact (reach_up pushed_twice.1 1%positive 2%positive
             (reach_here pushed_twice.1 2%positive)).
  - reflexivity.
  - intros a _. unfold StackCompareFn. by destruct (decide (a = 2%positive)).
Defined.

(** ** Traversals: termination and mutation *)

Lemma collect_length h fuel : ∀ g ns, collect fuel h g = Some ns → length ns < fuel.
Proof.
  induction fuel as [|fuel IH]; intros g ns Hrun; [done|].
  cbn [collect] in Hrun. destruct (gen_next h g) as [[n|] g1].
  - destruct (collect fuel h g1) as [ns'|] eqn:Hrest; [|done].
    injection Hrun as <-. apply IH in Hrest. simpl. lia.
  - injection Hrun as <-. simpl. lia.
Qed.

Lemma stackDepth_loop_sound h fuel : ∀ v d d',
  stackDepth_loop fuel h v d = Some d' →
  ∃ anc, chain h v anc ∧ d' = (d + Z.of_nat (length anc))%Z ∧ length anc < fuel.
Proof.
  induction fuel as [|fuel IH]; intros v d d' Hrun; [done|].
  destruct v as [n|]; cbn [stackDepth_loop] in Hrun.
  - apply IH in Hrun as (anc & Hc & -> & Hlen). exists (n :: anc).
    split; [by constructor|]. simpl. split; lia.
  - injection Hrun as <-. exists []. split; [constructor|]. simpl. split; lia.
Qed.

(** X7: a traversal run to completion returns exactly when the parent
    chain from its starting point ends at the sentinel, and then it has
    yielded that chain; likewise [stackDepth] returns exactly when the
    chain above the node ends, with its length.  On cyclic links neither
    ever returns, whatever the fuel. *)
Theorem traversal_returns_iff_chain (h : heap) (fuel : nat) :
  (∀ s ns, collect fuel h (stackIterator s) = Some ns
           ↔ chain h (top s) ns ∧ length ns < fuel)
  ∧ (∀ node ns, collect fuel h (stackIterateFrom node) = Some ns
                ↔ chain h (Some node) ns ∧ length ns < fuel)
  ∧ (∀ node ns, collect fuel h (stackIterateToParent node) = Some ns
                ↔ chain h (get_parent h node) ns ∧ length ns < fuel)
  ∧ (∀ node d, stackDepth fuel h node = Some d
               ↔ ∃ anc, chain h (get_parent h node) anc
                        ∧ d = Z.of_nat (length anc) ∧ length anc < fuel).
Proof.
  assert (Hgen : ∀ g ns, collect fuel h g = Some ns
                         ↔ chain h (entry h g) ns ∧ length ns < fuel).
  { intros g ns. split.
    - intros Hrun. split; [by eapply collect_sound | by eapply collect_length].
    - intros [Hc Hlen]. by apply collect_chain. }
  split; [|split; [|split]].
  - intros s ns. by rewrite Hgen, entry_iterator.
  - intros node ns. by rewrite Hgen.
  - intros node ns. by rewrite Hgen, entry_to_parent.
  - intros node d. unfold stackDepth. split.
    + intros (anc & Hc & -> & Hlen)%stackDepth_loop_sound. by exists anc.
    + intros (anc & Hc & -> & Hlen). by rewrite (stackDepth_loop_chain h anc).
Qed.

(** X8: the traversal is live.  On a stack whose top [n] sits on a node
    [m], the iterator first yields [n]; left alone it yields [m] next, but
    if [n] is popped in between it is done at once, although the stack
    still holds [m] and everything below. *)
Theorem iterator_ends_after_pop (h : heap) (s : Stack) (n m : loc) (ns : list loc) :
  chain h (top s) (n :: m :: ns) →
  gen_next h (stackIterator s) = (Some n, Suspended n)
  ∧ gen_next h (Suspended n) = (Some m, Suspended m)
  ∧ gen_next (stackPop h s).1.2 (Suspended n) = (None, Finished)
  ∧ top (stackPop h s).2 = Some m
  ∧ chain (stackPop h s).1.2 (top (stackPop h s).2) (m :: ns).
Proof.
  intros Hc. destruct (stackPop_chain _ _ _ _ Hc) as [Hpop Hc'].
  pose proof (chain_top_last _ _ _ Hc) as Htop. simpl in Htop.
  pose proof (chain_top_last _ _ _ Hc') as Hm. simpl in Hm.
  rewrite Hpop. cbn [fst snd top]. rewrite Hm in *.
  split; [|split; [|split; [|split]]]; try done.
  - by rewrite gen_next_entry, entry_iterator, Htop.
  - by rewrite gen_next_entry, entry_suspended, Hm.
  - by rewrite gen_next_entry, entry_suspended, get_set_parent_eq.
Qed.

Lemma iterator_ends_after_pop_witness :
  gen_next two_linked (stackIterator {| top := Some 2%positive; count := 2 |})
  = (Some 2%positive, Suspended 2%positive)
  ∧ gen_next two_linked (Suspended 2%positive) = (Some 1%positive, Suspended 1%positive)
  ∧ gen_next (stackPop two_linked {| top := Some 2%positive; count := 2 |}).1.2
             (Suspended 2%positive) = (None, Finished)
  ∧ top (stackPop two_linked {| top := Some 2%positive; count := 2 |}).2 = Some 1%positive
  ∧ chain (stackPop two_linked {| top := Some 2%positive; count := 2 |}).1.2
          (top (stackPop two_linked {| top := Some 2%positive; count := 2 |}).2)
          [1%positive].
Proof.
  apply (iterator_ends_after_pop two_linked {| top := Some 2%positive; count := 2 |}
           2%positive 1%positive []).
  exact (chain_link two_linked 2%positive [1%positive]
           (chain_link two_linked 1%positive [] (chain_end two_linked))).
Defined.

Lemma reach_set_parent h v node w x :
  reach h v x → x = node → reach (set_parent h node w) v x.
Proof.
  induction 1 as [n|n m Hr IH]; intros ->; [constructor|].
  destruct (decide (n = node)) as [->|Hne]; [constructor|].
  apply reach_up. rewrite get_set_parent_ne by done. by apply IH.
Qed.

Lemma no_chain_on_cycle h n ns :
  reach h (get_parent h n) n → ¬ chain h (get_parent h n) ns.
Proof.
  intros Hr Hc. pose proof (proj1 (chain_reach h _ ns n Hc) Hr) as Hin.
  apply (chain_head_fresh h n ns); [|done]. by constructor.
Qed.

(** X9: pushing a node that is already linked into the stack closes a
    cycle: afterwards no traversal from [top] and no [stackDepth] of that
    node ever returns, and [count] (when it can be stepped up exactly)
    has gone up by one although no node was added. *)
Theorem push_linked_node_cycles (h : heap) (s : Stack) (node : loc) :
  reach h (top s) node →
  let st := stackPush h s node in
  (incr_exact (count s) 1 → count st.2 = (count s + 1)%Z)
  ∧ reach st.1 (get_parent st.1 node) node
  ∧ ∀ fuel, collect fuel st.1 (stackIterator st.2) = None
            ∧ stackDepth fuel st.1 node = None.
Proof.
  intros Hr st.
  assert (Hcyc : reach st.1 (get_parent st.1 node) node).
  { unfold st, stackPush. cbn [fst]. rewrite get_set_parent_eq.
    by apply reach_set_parent. }
  split; [done|]. split; [done|]. intros fuel. split.
  - destruct (collect fuel st.1 (stackIterator st.2)) as [ns|] eqn:Hrun; [|done].
    apply collect_sound in Hrun. rewrite entry_iterator in Hrun.
    inversion Hrun as [|? ? Hc]; subst. by apply no_chain_on_cycle in Hc.
  - destruct (stackDepth fuel st.1 node) as [d|] eqn:Hrun; [|done].
    apply stackDepth_loop_sound in Hrun as (anc & Hc & _).
    by apply no_chain_on_cycle in Hc.
Qed.

(** X9 when node 1, the bottom of [two_linked], is pushed again. *)
Lemma push_linked_node_cycles_witness :
  let st := stackPush two_linked {| top := Some 2%positive; count := 2 |} 1%positive in
  count st.2 = 3%Z
  ∧ reach st.1 (get_parent st.1 1%positive) 1%positive
  ∧ ∀ fuel, collect fuel st.1 (stackIterator st.2) = None
            ∧ stackDepth fuel st.1 1%positive = None.
Proof.
  destruct (push_linked_node_cycles two_linked {| top := Some 2%positive; count := 2 |}
              1%positive) as (Hcnt & Hcyc & Hnever).
  { exact (reach_up two_linked 2%positive 1%positive (reach_here two_linked 1%positive)). }
  split; [|by split].
  apply Hcnt. unfold incr_exact. simpl. lia.
Defined.

(** ** One node in two stacks *)

Lemma chain_prefix_segment h pre : ∀ v x suf,
  chain h v (pre ++ x :: suf) → segment h v pre (Some x).
Proof.
  induction pre as [|p pre IH]; intros v x suf Hc.
  - simpl in Hc. pose proof (chain_top_last _ _ _ Hc) as Hv. simpl in Hv.
    subst v. constructor.
  - inversion Hc; subst. constructor. by eapply IH.
Qed.

(** X10: the stacks do not check the single-linkage contract.  When a
    node [x] linked into stack [s1] is pushed onto another stack [s2],
    [s2] takes it as its top over its old nodes, and the traversal of
    [s1] no longer continues from [x] into the nodes [s1] held below it
    but into the old nodes of [s2]; the [count] of [s1] is not adjusted. *)
Theorem push_node_of_other_stack (h : heap) (s1 s2 : Stack) (pre suf ms : list loc)
    (x : loc) :
  chain h (top s1) (pre ++ x :: suf) → chain h (top s2) ms → x ∉ ms →
  let st := stackPush h s2 x in
  chain st.1 (top st.2) (x :: ms)
  ∧ chain st.1 (top s1) (pre ++ x :: ms)
  ∧ ∀ fuel, length (pre ++ x :: ms) < fuel →
      collect fuel st.1 (stackIterator s1) = Some (pre ++ x :: ms).
Proof.
  intros Hc1 Hc2 Hx st.
  assert (Hst : chain st.1 (top st.2) (x :: ms)) by by apply stackPush_chain.
  assert (Hpre : x ∉ pre).
  { apply chain_NoDup in Hc1. apply NoDup_app in Hc1 as (_ & Hdisj & _).
    intros Hin. apply (Hdisj x Hin), list_elem_of_here. }
  assert (Hs1 : chain st.1 (top s1) (pre ++ x :: ms)).
  { apply segment_chain. eapply segment_app; [|by apply segment_chain, Hst].
    eapply segment_frame; [by eapply chain_prefix_segment|].
    intros y Hy. apply get_set_parent_ne. by intros ->. }
  split; [done|]. split; [done|]. intros fuel Hfuel.
  apply collect_chain; [by rewrite entry_iterator | done].
Qed.

(** X10 on [three_nodes]: node 2, the top of the stack 2 over 1, is
    pushed onto the stack that holds node 3; the first stack now runs
    from 2 into 3 and has lost node 1. *)
Lemma push_node_of_other_stack_witness :
  let st := stackPush three_nodes {| top := Some 3%positive; count := 1 |} 2%positive in
  chain st.1 (top st.2) [2; 3]%positive
  ∧ chain st.1 (Some 2%positive) ([] ++ [2; 3]%positive)
  ∧ ∀ fuel, length ([] ++ [2; 3]%positive) < fuel →
      collect fuel st.1 (stackIterator {| top := Some 2%positive; count := 2 |})
      = Some ([] ++ [2; 3]%positive).
Proof.
  apply (push_node_of_other_stack three_nodes
           {| top := Some 2%positive; count := 2 |}
           {| top := Some 3%positive; count := 1 |}
           [] [1%positive] [3%positive] 2%positive).
  - exact (chain_link three_nodes 2%positive [1%positive]
             (chain_link three_nodes 1%positive [] (chain_end three_nodes))).
  - exact (chain_link three_nodes 3%positive [] (chain_end three_nodes)).
  - compute_done.
Defined.

(** ** stackNodeCreate *)

(** X11: [stackNodeCreate] returns an object that was not in the store,
    with an empty [parent], and touches no other object; pushing it onto
    a stack whose linked nodes are all objects of the store therefore
    keeps the parent chain well formed, one node longer. *)
Theorem stackNodeCreate_fresh (h : heap) :
  let nh := stackNodeCreate h in
  h !! nh.1 = None
  ∧ get_parent nh.2 nh.1 = sentinel
  ∧ (∀ m, m ≠ nh.1 → nh.2 !! m = h !! m)
  ∧ ∀ s ns, chain h (top s) ns → (∀ x, x ∈ ns → is_Some (h !! x)) →
      chain (stackPush nh.2 s nh.1).1 (top (stackPush nh.2 s nh.1).2) (nh.1 :: ns).
Proof.
  intros nh.
  assert (Hfresh : h !! nh.1 = None).
  { apply not_elem_of_dom. unfold nh, stackNodeCreate. cbn [fst]. apply is_fresh. }
  split; [done|]. split; [|split].
  - unfold nh, stackNodeCreate, get_parent. cbn [fst snd]. by rewrite lookup_insert_eq.
  - intros m Hm. unfold nh, stackNodeCreate. cbn [fst snd]. by rewrite lookup_insert_ne.
  - intros s ns Hc Hdom.
    assert (Hnew : nh.1 ∉ ns).
    { intros Hin. destruct (Hdom _ Hin) as [? Hsome]. congruence. }
    apply stackPush_chain; [|done].
    eapply chain_frame; [exact Hc|]. intros x Hx. unfold get_parent.
    unfold nh at 1, stackNodeCreate. cbn [snd]. rewrite lookup_insert_ne; [done|].
    by intros <-.
Qed.

(** ** stackQuery with several predicates *)

(** X12: the predicates of [stackQuery] act as a conjunction: on a stack
    whose parent chain ends at the sentinel, querying with the predicates
    [fn] followed by [gn] gives the intersection of the two separate
    queries, and the order of the two groups does not matter. *)
Theorem stackQuery_app (h : heap) (s : Stack) (ns : list loc)
    (fn gn : list (loc → bool)) (fuel : nat) :
  chain h (top s) ns → length ns < fuel →
  ∃ rf rg,
    stackQuery fuel h s fn = Some rf
    ∧ stackQuery fuel h s gn = Some rg
    ∧ stackQuery fuel h s (fn ++ gn) = Some (rf ∩ rg)
    ∧ stackQuery fuel h s (gn ++ fn) = Some (rf ∩ rg).
Proof.
  intros Hc Hfuel.
  assert (Hq : ∀ kn, ∃ r, stackQuery fuel h s kn = Some r
                          ∧ ∀ x, x ∈ r ↔ x ∈ ns ∧ ∀ f, f ∈ kn → f x = true).
  { intros kn.
    destruct (stackQuery_loop_chain h kn ns fuel (stackIterator s) ∅) as (r & Hrun & Hr);
      [by rewrite entry_iterator | done |].
    exists r. split; [done|]. intros x.
    rewrite Hr, query_inner_all, elem_of_empty. tauto. }
  destruct (Hq fn) as (rf & Hrf & Hf). destruct (Hq gn) as (rg & Hrg & Hg).
  destruct (Hq (fn ++ gn)) as (r1 & Hr1 & H1).
  destruct (Hq (gn ++ fn)) as (r2 & Hr2 & H2).
  exists rf, rg. split; [done|]. split; [done|].
  rewrite Hr1, Hr2. split; f_equal; apply set_eq; intros x;
    rewrite elem_of_intersection, Hf, Hg.
  - rewrite H1. split.
    + intros [Hx Hall].
      split; (split; [done|]); intros f Hin; apply Hall, elem_of_app; auto.
    + intros [[Hx Ha] [_ Hb]]. split; [done|].
      intros f [Hin|Hin]%elem_of_app; auto.
  - rewrite H2. split.
    + intros [Hx Hall].
      split; (split; [done|]); intros f Hin; apply Hall, elem_of_app; auto.
    + intros [[Hx Ha] [_ Hb]]. split; [done|].
      intros f [Hin|Hin]%elem_of_app; auto.
Qed.

Lemma stackQuery_app_witness :
  ∃ rf rg,
    stackQuery 3 two_linked {| top := Some 2%positive; count := 2 |}
      [λ n, Pos.leb n 1] = Some rf
    ∧ stackQuery 3 two_linked {| top := Some 2%positive; count := 2 |}
        [λ n, Pos.leb 2 n] = Some rg
    ∧ stackQuery 3 two_linked {| top := Some 2%positive; count := 2 |}
        ([λ n, Pos.leb n 1] ++ [λ n, Pos.leb 2 n]) = Some (rf ∩ rg)
    ∧ stackQuery 3 two_linked {| top := Some 2%positive; count := 2 |}
        ([λ n, Pos.leb 2 n] ++ [λ n, Pos.leb n 1]) = Some (rf ∩ rg).
Proof.
  apply (stackQuery_app two_linked {| top := Some 2%positive; count := 2 |}
           [2; 1]%positive [λ n, Pos.leb n 1] [λ n, Pos.leb 2 n] 3).
  - exact (chain_link two_linked 2%positive [1%positive]
             (chain_link two_linked 1%positive [] (chain_end two_linked))).
  - simpl. lia.
Defined.


Lemma stackNodeCreate_fresh_witness :
  let nh := stackNodeCreate two_linked in
  chain (stackPush nh.2 {| top := Some 2%positive; count := 2 |} nh.1).1
        (top (stackPush nh.2 {| top := Some 2%positive; count := 2 |} nh.1).2)
        (nh.1 :: [2; 1]%positive).
Proof.
  apply (proj2 (proj2 (proj2 (stackNodeCreate_fresh two_linked)))
           {| top := Some 2%positive; count := 2 |} [2; 1]%positive).
  - exact (chain_link two_linked 2%positive [1%positive]
             (chain_link two_linked 1%positive [] (chain_end two_linked))).
  - intros x [->|[->|[]%elem_of_nil]%elem_of_cons]%elem_of_cons; by eexists.
Defined.

(** ** Depth, position and count *)

Lemma stackDepth_at h v ns i x fuel :
  chain h v ns → ns !! i = Some x → length ns ≤ fuel →
  stackDepth fuel h x = Some (Z.of_nat (length ns) - 1 - Z.of_nat i)%Z.
Proof.
  intros Hc Hi Hfuel. pose proof (lookup_lt_Some _ _ _ Hi) as Hlt.
  rewrite <- (take_drop_middle ns i x Hi) in Hc.
  apply chain_above, chain_tail in Hc.
  rewrite (stackDepth_chain h x _ fuel Hc); rewrite length_drop; [|lia].
  f_equal. lia.
Qed.

(** X13: on a stack whose parent chain [ns] ends at the sentinel, the
    node at position [i] from the top has depth [length ns - 1 - i]: the
    top has depth [length ns - 1] and the bottom depth 0.  Pushing a node
    that is not linked gives that node the depth [length ns] and changes
    the depth of no node already linked. *)
Theorem stackDepth_position (h : heap) (s : Stack) (ns : list loc) (fuel : nat) :
  chain h (top s) ns → length ns < fuel →
  (∀ i x, ns !! i = Some x →
     stackDepth fuel h x = Some (Z.of_nat (length ns) - 1 - Z.of_nat i)%Z)
  ∧ (∀ node, node ∉ ns →
       let st := stackPush h s node in
       stackDepth fuel st.1 node = Some (Z.of_nat (length ns))
       ∧ ∀ i x, ns !! i = Some x → stackDepth fuel st.1 x = stackDepth fuel h x).
Proof.
  intros Hc Hfuel. split.
  - intros i x Hi. apply (stackDepth_at h (top s) ns); [done | done | lia].
  - intros node Hnew st.
    pose proof (stackPush_chain h s node ns Hc Hnew) as Hc'. fold st in Hc'.
    split.
    + rewrite (stackDepth_at st.1 _ (node :: ns) 0 node fuel Hc'); [|done|simpl; lia].
      f_equal. simpl length. lia.
    + intros i x Hi.
      rewrite (stackDepth_at st.1 _ (node :: ns) (S i) x fuel Hc'); [|done|simpl; lia].
      rewrite (stackDepth_at h _ ns i x fuel Hc); [|done|lia].
      f_equal. simpl length. lia.
Qed.

Lemma stackDepth_position_witness :
  (∀ i x, [2; 1]%positive !! i = Some x →
     stackDepth 3 two_linked x = Some (Z.of_nat 2 - 1 - Z.of_nat i)%Z)
  ∧ (∀ node, node ∉ [2; 1]%positive →
       let st := stackPush two_linked {| top := Some 2%positive; count := 2 |} node in
       stackDepth 3 st.1 node = Some (Z.of_nat 2)
       ∧ ∀ i x, [2; 1]%positive !! i = Some x →
           stackDepth 3 st.1 x = stackDepth 3 two_linked x).
Proof.
  apply (stackDepth_position two_linked {| top := Some 2%positive; count := 2 |}
           [2; 1]%positive 3).
  - exact (chain_link two_linked 2%positive [1%positive]
             (chain_link two_linked 1%positive [] (chain_end two_linked))).
  - simpl. lia.
Defined.

(** ** What is on top after a push, what is found after a removal *)

(** X14: after [stackPush], whatever the stack and the store were,
    [stackPeek] returns the node pushed and its [parent] is the former
    top; [stackIsTop] with a default comparator returns true of it; of any
    other node it returns false in the [SentinelNode] revision, and in
    [Stack.ts] it returns false when [a > b] can be evaluated on the two
    nodes and raises otherwise; [stackHas] finds the node at the first
    step, before any [a > b]. *)
Theorem push_makes_top (h : heap) (s : Stack) (node : loc)
    (js_gt : loc → loc → option bool) :
  let st := stackPush h s node in
  stackPeek st.2 = Some node
  ∧ get_parent st.1 node = top s
  ∧ stackIsTop st.2 node (StackCompareFn js_gt) = Returns true
  ∧ (∀ other, other ≠ node →
       stackIsTop st.2 other (StackCompareFn js_gt)
       = match js_gt node other with
         | Some _ => Returns false
         | None => Throws
         end)
  ∧ (∀ other, StackSn.stackIsTop (StackSn.stackPush (heap_sn h) (stack_sn s) node).2
                other StackSn.StackCompareFn = Returns (bool_decide (other = node)))
  ∧ ∀ fuel, stackHas (S fuel) st.1 st.2 node (StackCompareFn js_gt)
            = Some (Returns true).
Proof.
  intros st. split; [done|]. split; [apply get_set_parent_eq|].
  split; [|split; [|split]].
  - unfold st, stackIsTop, stackPush, StackCompareFn. cbn [snd top guard andb].
    by rewrite decide_True.
  - intros other Hne. unfold st, stackIsTop, stackPush, StackCompareFn.
    cbn [snd top guard andb]. rewrite decide_False by congruence.
    by destruct (js_gt node other) as [[]|].
  - intros other. unfold StackSn.stackIsTop, StackSn.stackPush, StackSn.StackCompareFn.
    cbn [snd StackSn.top StackSn.guard andb].
    destruct (decide (node = other)) as [->|Hne].
    + by rewrite bool_decide_eq_true_2.
    + by rewrite bool_decide_eq_false_2 by congruence.
  - intros fuel. unfold stackHas. cbn [stackHas_loop].
    rewrite gen_next_entry, entry_iterator. unfold st, stackPush, StackCompareFn.
    cbn [snd top]. by rewrite decide_True.
Qed.

(** X14 on a push of node 3 onto the stack of [two_linked], asked about
    node 2 with [3 > 2] raising. *)
Lemma push_makes_top_witness :
  stackIsTop (stackPush two_linked {| top := Some 2%positive; count := 2 |} 3%positive).2
    2%positive (StackCompareFn (λ _ _, None)) = Throws.
Proof.
  apply (proj1 (proj2 (proj2 (proj2
           (push_makes_top two_linked {| top := Some 2%positive; count := 2 |}
              3%positive (λ _ _, None))))) 2%positive).
  discriminate.
Defined.

(** X15: a node that has been removed is no longer found.  On a stack
    whose parent chain ends at the sentinel, and with [a > b] evaluable
    on the nodes that stay linked, after [stackPop] the default [stackHas]
    returns false for the node popped and still true for every node that
    was below it; after [stackClear], on any stack at all, [stackHas]
    returns false for every node under every comparator, which is not
    called. *)
Theorem stackHas_after_removal :
  (∀ (h : heap) s n ns js_gt fuel,
     chain h (top s) (n :: ns) → length ns < fuel →
     (∀ y z, y ∈ ns → y ≠ z → is_Some (js_gt y z)) →
     stackHas fuel (stackPop h s).1.2 (stackPop h s).2 n (StackCompareFn js_gt)
     = Some (Returns false)
     ∧ ∀ x, x ∈ ns →
         stackHas fuel (stackPop h s).1.2 (stackPop h s).2 x (StackCompareFn js_gt)
         = Some (Returns true))
  ∧ (∀ (h : heap) s, ∃ h' s',
       stackClear h s = Some (h', s')
       ∧ ∀ node compare fuel,
           stackHas (S fuel) h' s' node compare = Some (Returns false)).
Proof.
  split.
  - intros h s n ns js_gt fuel Hc Hfuel Hdef.
    destruct (stackPop_chain _ _ _ _ Hc) as [Hpop Hc']. rewrite Hpop. cbn [fst snd].
    assert (Hn : n ∉ ns).
    { apply (chain_head_fresh h).
      pose proof (chain_top_last _ _ _ Hc) as Htop. simpl in Htop. by rewrite <- Htop. }
    assert (Hhas : ∀ x, stackHas fuel (set_parent h n sentinel)
                {| top := get_parent h n; count := count s - 1 |} x (StackCompareFn js_gt)
              = Some (Returns (bool_decide (x ∈ ns)))).
    { intros x. apply (stackHas_default_chain _ _ ns); [done | done |].
      intros y Hy Hne. by apply Hdef. }
    split.
    + by rewrite Hhas, bool_decide_eq_false_2.
    + intros x Hx. by rewrite Hhas, bool_decide_eq_true_2.
  - intros h s. destruct (stackClear_total h s) as [[h' s'] Hrun].
    exists h', s'. split; [done|]. intros node compare fuel.
    destruct (stackClear_loop_result _ _ _ _ _ Hrun) as [Hend _].
    unfold stackHas. cbn [stackHas_loop].
    by rewrite gen_next_entry, entry_iterator, Hend.
Qed.

Lemma stackHas_after_removal_witness :
  stackHas 2 (stackPop two_linked {| top := Some 2%positive; count := 2 |}).1.2
           (stackPop two_linked {| top := Some 2%positive; count := 2 |}).2
           2%positive (StackCompareFn (λ _ _, Some false)) = Some (Returns false)
  ∧ ∀ x, x ∈ [1%positive] →
      stackHas 2 (stackPop two_linked {| top := Some 2%positive; count := 2 |}).1.2
               (stackPop two_linked {| top := Some 2%positive; count := 2 |}).2
               x (StackCompareFn (λ _ _, Some false)) = Some (Returns true).
Proof.
  apply (proj1 stackHas_after_removal two_linked
           {| top := Some 2%positive; count := 2 |} 2%positive [1%positive]
           (λ _ _, Some false) 2).
  - exact (chain_link two_linked 2%positive [1%positive]
             (chain_link two_linked 1%positive [] (chain_end two_linked))).
  - simpl. lia.
  - intros y z _ _. by eexists.
Defined.

End StackMore.
